(** * Detective Quest: clue tree, suspect table, exploration and verdict

    A shallow embedding of [algoritmos_avancados.c].

    - A C string is the sequence of bytes before its terminator; it is a
      [string] here, compared byte by byte as [unsigned char].
    - A pointer that the code tests against [NULL] is an [option].
    - The tree of clues and the chains of the table are owned by one
      pointer each, so an update in place is the rebuilt value. The rooms
      are linked through the locals of [main]: they live in a list, and a
      [Sala *] is an index into it.
    - [malloc] is taken to succeed: the [exit(EXIT_FAILURE)] branches are
      not part of the model.
    - [unsigned long] has 64 bits; nothing proved below depends on the
      width. The [int] counter of the verdict is an integer without
      wrap-around in [contarPistasPorSuspeitoRec], which is the code as
      long as the counter stays in the range of [int] (from 0 it is bounded
      by the number of nodes of the tree);
      [contarPistasPorSuspeitoRec_int] has the wrap-around of 32 bits.
    - [stdin] is the string of bytes still to be read, [stdout] the list of
      messages printed so far. *)

From Stdlib Require Import ZArith String Ascii List Lia.
From stdpp Require Import base list sorting strings.
Import ListNotations.

Local Open Scope Z_scope.

(** ** Constants *)

Definition MAX_NOME : nat := 64.
Definition MAX_PISTA : nat := 128.
Definition HASH_SIZE : Z := 101.

(** ** C strings *)

Module CStr.

(** [strcmp]: the sign of the difference of the first pair of bytes that
    differ, both read as [unsigned char]; the terminator is below every
    other byte. *)
Fixpoint strcmp (s1 s2 : string) : comparison :=
  match s1, s2 with
  | EmptyString, EmptyString => Eq
  | EmptyString, String _ _ => Lt
  | String _ _, EmptyString => Gt
  | String c1 r1, String c2 r2 =>
      match N.compare (N_of_ascii c1) (N_of_ascii c2) with
      | Eq => strcmp r1 r2
      | c => c
      end
  end.

(** [strncpy(dst, src, n); dst[n] = '\0';] on a buffer of [n + 1] bytes:
    the C string left in [dst] is the first [n] bytes of [src] (all of
    [src] when it is shorter). *)
Fixpoint strncpy (src : string) (n : nat) : string :=
  match n, src with
  | O, _ => EmptyString
  | S _, EmptyString => EmptyString
  | S n', String c r => String c (strncpy r n')
  end.

(** [strlen] *)
Definition strlen (s : string) : nat := String.length s.

(** The C string held by a buffer filled with the bytes [b]: what comes
    before the first NUL byte. *)
Fixpoint c_str (b : string) : string :=
  match b with
  | EmptyString => EmptyString
  | String c r => if Ascii.eqb c Ascii.zero then EmptyString else String c (c_str r)
  end.

Definition str_le (a b : string) : Prop := strcmp a b <> Gt.
Definition str_lt (a b : string) : Prop := strcmp a b = Lt.

End CStr.
Import CStr.

(** ** The tree of collected clues *)

(** A [PistaNode *]: [PNull] is the null pointer, [PNo] a node with its
    fields [pista], [esq], [dir]. *)
Inductive PistaNode : Type :=
| PNull
| PNo (pista : string) (esq dir : PistaNode).

Fixpoint inserirPista (raiz : PistaNode) (pista : option string) {struct raiz}
  : PistaNode :=
  match pista with
  | None => raiz
  | Some EmptyString => raiz
  | Some p =>
      match raiz with
      | PNull => PNo (strncpy p (MAX_PISTA - 1)) PNull PNull
      | PNo rp esq dir =>
          match strcmp p rp with
          | Lt => PNo rp (inserirPista esq pista) dir
          | Gt => PNo rp esq (inserirPista dir pista)
          | Eq => raiz
          end
      end
  end.

(** The clue texts in the order an in-order walk meets them. *)
Fixpoint em_ordem (raiz : PistaNode) : list string :=
  match raiz with
  | PNull => []
  | PNo p esq dir => em_ordem esq ++ p :: em_ordem dir
  end.

Fixpoint tamanho (raiz : PistaNode) : nat :=
  match raiz with
  | PNull => O
  | PNo _ esq dir => S (tamanho esq + tamanho dir)
  end.

(** ** Input and output *)

(** What the program prints, one constructor per [printf]. *)
Inductive Msg : Type :=
| MBanner                                   (* the two opening lines of main *)
| MEntrou (nome : string)                   (* "Voce entrou na sala: %s" *)
| MPistaEncontrada (pista : string)         (* "  Pista encontrada: ..." *)
| MNenhumaPistaSala                         (* "  (Nenhuma pista nesta sala)" *)
| MMenu                                     (* "Escolha: ..." and "Opcao: " *)
| MEntradaInvalida                          (* "Entrada invalida. Encerrando." *)
| MSemCaminhoEsquerda                       (* "Nao ha caminho a esquerda." *)
| MSemCaminhoDireita                        (* "Nao ha caminho a direita." *)
| MEncerrada                                (* "Exploracao encerrada pelo jogador." *)
| MOpcaoInvalida                            (* "Opcao invalida. Use e, d ou s." *)
| MCabecalhoPistas                          (* "===== Pistas coletadas ... =====" *)
| MNenhumaPistaColetada                     (* "Nenhuma pista coletada." *)
| MPista (pista : string)                   (* " - %s" *)
| MPerguntaAcusado                          (* "Quem voce acusa como culpado? ..." *)
| MErroLeitura                              (* "Erro na leitura. Encerrando verificacao." *)
| MAcusacaoInvalida                         (* "Nenhum nome fornecido. Acusacao invalida." *)
| MAcusado (acusado : string)               (* "Acusado: %s" *)
| MContagem (acusado : string) (cont : Z)   (* "Pistas que apontam para %s: %d" *)
| MCulpado (acusado : string)               (* "VEREDICTO: Ha pistas suficientes! ..." *)
| MInsuficiente (acusado : string)          (* "VEREDICTO: Pistas insuficientes. ..." *)
| MObrigado.                                (* "Obrigado por jogar Detective Quest!" *)

(** [exibirPistas]: one line [" - %s"] per node, left subtree first. *)
Fixpoint exibirPistas (raiz : PistaNode) (out : list Msg) : list Msg :=
  match raiz with
  | PNull => out
  | PNo p esq dir => exibirPistas dir (exibirPistas esq out ++ [MPista p])
  end.

(** ** The suspect table *)

Definition ULONG_BITS : Z := 64.

(** One turn of the loop of [hash_string]: [h = ((h << 5) + h) + c] in
    [unsigned long] arithmetic. *)
Definition hash_passo (h : Z) (c : ascii) : Z :=
  (((Z.shiftl h 5 mod 2 ^ ULONG_BITS) + h) mod 2 ^ ULONG_BITS
   + Z.of_N (N_of_ascii c)) mod 2 ^ ULONG_BITS.

Fixpoint hash_laco (s : string) (h : Z) : Z :=
  match s with
  | EmptyString => h
  | String c r => hash_laco r (hash_passo h c)
  end.

Definition hash_string (s : string) : Z := hash_laco s 5381.

(** A [HashEntry]; the [prox] link is the tail of the chain. *)
Record HashEntry : Type := mkEntry { h_pista : string; h_suspeito : string }.

(** [HashEntry *tabela[HASH_SIZE]]: one chain per bucket. *)
Abbreviation Tabela := (list (list HashEntry)).

Definition tabela_vazia : Tabela := replicate (Z.to_nat HASH_SIZE) [].

(** [tabela[h]] *)
Definition balde (tabela : Tabela) (h : nat) : list HashEntry :=
  default [] (tabela !! h).

Definition indice (pista : string) : nat :=
  Z.to_nat (hash_string pista mod HASH_SIZE).

(** The [while (at)] loop of [inserirNaHash]: [Some] chain with the suspect
    of the first entry whose key equals [pista] overwritten, [None] when the
    loop falls through. *)
Fixpoint sobrescrever (cadeia : list HashEntry) (pista suspeito : string)
  : option (list HashEntry) :=
  match cadeia with
  | [] => None
  | e :: prox =>
      match strcmp (h_pista e) pista with
      | Eq => Some (mkEntry (h_pista e) (strncpy suspeito (MAX_NOME - 1)) :: prox)
      | _ => match sobrescrever prox pista suspeito with
             | Some prox' => Some (e :: prox')
             | None => None
             end
      end
  end.

Definition inserirNaHash (tabela : Tabela) (pista suspeito : option string)
  : Tabela :=
  match pista, suspeito with
  | Some p, Some s =>
      let h := indice p in
      match sobrescrever (balde tabela h) p s with
      | Some cadeia => <[h := cadeia]> tabela
      | None =>
          let novo := mkEntry (strncpy p (MAX_PISTA - 1)) (strncpy s (MAX_NOME - 1)) in
          <[h := novo :: balde tabela h]> tabela
      end
  | _, _ => tabela
  end.

(** The [while (at)] loop of [encontrarSuspeito]. *)
Fixpoint procurar (cadeia : list HashEntry) (pista : string) : option string :=
  match cadeia with
  | [] => None
  | e :: prox =>
      match strcmp (h_pista e) pista with
      | Eq => Some (h_suspeito e)
      | _ => procurar prox pista
      end
  end.

Definition encontrarSuspeito (tabela : Tabela) (pista : option string)
  : option string :=
  match pista with
  | None => None
  | Some p => procurar (balde tabela (indice p)) p
  end.

(** Every key stored in the table, bucket after bucket. *)
Definition chaves (tabela : Tabela) : list string :=
  h_pista <$> concat tabela.

(** The number of distinct keys. *)
Definition num_chaves (tabela : Tabela) : nat :=
  length (remove_dups (chaves tabela)).

(** What the types [char pista[MAX_PISTA]] and [char suspeito[MAX_NOME]]
    say of an entry, and [tabela[HASH_SIZE]] of the table. *)
Definition entrada_ok (e : HashEntry) : Prop :=
  (String.length (h_pista e) < MAX_PISTA)%nat /\
  (String.length (h_suspeito e) < MAX_NOME)%nat.

Definition tabela_ok (tabela : Tabela) : Prop :=
  length tabela = Z.to_nat HASH_SIZE /\ Forall (Forall entrada_ok) tabela.

(** ** Reading from [stdin] *)

Record Mundo : Type := mkMundo { stdin : string; stdout : list Msg }.

Definition imprimir (m : Msg) (w : Mundo) : Mundo :=
  mkMundo (stdin w) (stdout w ++ [m]).

Definition NL : ascii := ascii_of_nat 10.

(** [isspace] in the C locale: space, and the bytes 9 to 13. *)
Definition isspace (c : ascii) : bool :=
  let n := nat_of_ascii c in
  Nat.eqb n 32 || (Nat.leb 9 n && Nat.leb n 13).

Fixpoint pular_brancos (s : string) : string :=
  match s with
  | EmptyString => EmptyString
  | String c r => if isspace c then pular_brancos r else s
  end.

(** [scanf(" %c", &opc)]: white space is skipped, then one byte is read;
    [None] when the input ends first (the call does not return 1). *)
Definition scanf_char (entrada : string) : option ascii * string :=
  match pular_brancos entrada with
  | EmptyString => (None, EmptyString)
  | String c r => (Some c, r)
  end.

(** [limparEntradaRestante]: bytes are read up to and including the first
    newline, or to the end of the input. *)
Fixpoint limparEntradaRestante (entrada : string) : string :=
  match entrada with
  | EmptyString => EmptyString
  | String c r => if Ascii.eqb c NL then r else limparEntradaRestante r
  end.

(** The bytes [fgets] stores when it may read up to [n] of them: it stops
    after a newline, or at the end of the input. *)
Fixpoint fgets_bytes (n : nat) (entrada : string) : string * string :=
  match n, entrada with
  | O, _ => (EmptyString, entrada)
  | S _, EmptyString => (EmptyString, EmptyString)
  | S n', String c r =>
      if Ascii.eqb c NL then (String c EmptyString, r)
      else let '(b, resto) := fgets_bytes n' r in (String c b, resto)
  end.

(** [fgets(buf, size, stdin)]: [None] (a null result) when the input has
    ended before any byte; otherwise the C string left in [buf]. *)
Definition fgets (size : nat) (entrada : string) : option string * string :=
  match entrada with
  | EmptyString => (None, EmptyString)
  | String _ _ =>
      let '(b, resto) := fgets_bytes (size - 1) entrada in (Some (c_str b), resto)
  end.

(** [strip_newline]: the last byte is dropped when it is a newline. *)
Fixpoint strip_newline (s : string) : string :=
  match s with
  | EmptyString => EmptyString
  | String c EmptyString => if Ascii.eqb c NL then EmptyString else s
  | String c r => String c (strip_newline r)
  end.

(** ** The rooms *)

(** A [Sala *] is the index of the room in the list of rooms allocated so
    far; [None] is the null pointer. *)
Record Sala : Type := mkSala {
  s_nome : string;
  s_pista : string;
  s_esquerda : option nat;
  s_direita : option nat
}.

Abbreviation Casa := (list Sala).

Definition criarSala (nome : string) (pista : option string) (casa : Casa)
  : nat * Casa :=
  let p := match pista with
           | None => EmptyString
           | Some EmptyString => EmptyString
           | Some p => strncpy p (MAX_PISTA - 1)
           end in
  (length casa,
   casa ++ [mkSala (strncpy nome (MAX_NOME - 1)) p None None]).

(** [s->esquerda = q;] and [s->direita = q;] *)
Definition ligar_esquerda (s q : nat) (casa : Casa) : Casa :=
  alter (fun r => mkSala (s_nome r) (s_pista r) (Some q) (s_direita r)) s casa.

Definition ligar_direita (s q : nat) (casa : Casa) : Casa :=
  alter (fun r => mkSala (s_nome r) (s_pista r) (s_esquerda r) (Some q)) s casa.

(** What the types [char nome[MAX_NOME]] and [char pista[MAX_PISTA]] say of
    a room. *)
Definition sala_ok (s : Sala) : Prop :=
  (String.length (s_nome s) < MAX_NOME)%nat /\
  (String.length (s_pista s) < MAX_PISTA)%nat.

(** Every link of every room points to an allocated room. *)
Definition casa_ok (casa : Casa) : Prop :=
  Forall (fun s =>
    sala_ok s /\
    (forall q, s_esquerda s = Some q -> (q < length casa)%nat) /\
    (forall q, s_direita s = Some q -> (q < length casa)%nat)) casa.

(** ** Exploration *)

(** The first half of the loop body of [explorarSalas] (the entry into the
    room): the room is announced and its clue, if any, collected. *)
Definition entrarSala (sala : Sala) (raizPistas : PistaNode) (w : Mundo)
  : PistaNode * Mundo :=
  let w := imprimir (MEntrou (s_nome sala)) w in
  match s_pista sala with
  | String _ _ =>
      let w := imprimir (MPistaEncontrada (s_pista sala)) w in
      (inserirPista raizPistas (Some (s_pista sala)), w)
  | EmptyString => (raizPistas, imprimir MNenhumaPistaSala w)
  end.

Inductive Passo : Type :=
| Continua (atual : nat) (raizPistas : PistaNode) (w : Mundo)
| Encerra (raizPistas : PistaNode) (w : Mundo).

Definition e_min : ascii := ascii_of_nat 101.
Definition e_mai : ascii := ascii_of_nat 69.
Definition d_min : ascii := ascii_of_nat 100.
Definition d_mai : ascii := ascii_of_nat 68.
Definition s_min : ascii := ascii_of_nat 115.
Definition s_mai : ascii := ascii_of_nat 83.

(** The second half of the loop body: the menu, the command read and what
    it does. [atual] is the pointer to [sala]. *)
Definition lerOpcao (sala : Sala) (atual : nat) (raizPistas : PistaNode)
  (w : Mundo) : Passo :=
  let w := imprimir MMenu w in
  match scanf_char (stdin w) with
  | (None, resto) =>
      Encerra raizPistas (imprimir MEntradaInvalida (mkMundo resto (stdout w)))
  | (Some opc, resto) =>
      let w := mkMundo (limparEntradaRestante resto) (stdout w) in
      if Ascii.eqb opc e_min || Ascii.eqb opc e_mai then
        match s_esquerda sala with
        | Some q => Continua q raizPistas w
        | None => Continua atual raizPistas (imprimir MSemCaminhoEsquerda w)
        end
      else if Ascii.eqb opc d_min || Ascii.eqb opc d_mai then
        match s_direita sala with
        | Some q => Continua q raizPistas w
        | None => Continua atual raizPistas (imprimir MSemCaminhoDireita w)
        end
      else if Ascii.eqb opc s_min || Ascii.eqb opc s_mai then
        Encerra raizPistas (imprimir MEncerrada w)
      else
        Continua atual raizPistas (imprimir MOpcaoInvalida w)
  end.

(** The whole loop body. *)
Definition corpo (sala : Sala) (atual : nat) (raizPistas : PistaNode)
  (w : Mundo) : Passo :=
  let '(raizPistas, w) := entrarSala sala raizPistas w in
  lerOpcao sala atual raizPistas w.

(** [while (atual) { ... }], at most [passos] turns. [None]: the turns ran
    out, or [atual] points to no allocated room. *)
Fixpoint laco (passos : nat) (casa : Casa) (atual : option nat)
  (raizPistas : PistaNode) (w : Mundo) : option (PistaNode * Mundo) :=
  match atual with
  | None => Some (raizPistas, w)
  | Some p =>
      match passos with
      | O => None
      | S passos' =>
          match casa !! p with
          | None => None
          | Some sala =>
              match corpo sala p raizPistas w with
              | Continua q raizPistas' w' =>
                  laco passos' casa (Some q) raizPistas' w'
              | Encerra raizPistas' w' => Some (raizPistas', w')
              end
          end
      end
  end.

(** Every turn of the loop reads at least one byte or ends the loop, so
    one turn more than the length of the input is enough. *)
Definition explorarSalas (casa : Casa) (raiz : option nat)
  (raizPistas : PistaNode) (w : Mundo) : option (PistaNode * Mundo) :=
  laco (S (String.length (stdin w))) casa raiz raizPistas w.

(** ** The verdict *)

Fixpoint contarPistasPorSuspeitoRec (raiz : PistaNode) (tabela : Tabela)
  (suspeitoAlvo : string) (contador : Z) : Z :=
  match raiz with
  | PNull => contador
  | PNo p esq dir =>
      let contador := contarPistasPorSuspeitoRec esq tabela suspeitoAlvo contador in
      let contador :=
        match encontrarSuspeito tabela (Some p) with
        | Some s => match strcmp s suspeitoAlvo with
                    | Eq => contador + 1
                    | _ => contador
                    end
        | None => contador
        end in
      contarPistasPorSuspeitoRec dir tabela suspeitoAlvo contador
  end.

(** The range of [int], and the value that two's complement arithmetic on
    32 bits gives to an [int] expression whose mathematical value is [z]. *)
Definition INT_BITS : Z := 32.
Definition INT_MAX : Z := 2 ^ (INT_BITS - 1) - 1.
Definition INT_MIN : Z := - 2 ^ (INT_BITS - 1).

Definition int_wrap (z : Z) : Z := (z - INT_MIN) mod 2 ^ INT_BITS + INT_MIN.

(** [contarPistasPorSuspeitoRec] with the increment of the counter as the
    machine performs it on an [int]. *)
Fixpoint contarPistasPorSuspeitoRec_int (raiz : PistaNode) (tabela : Tabela)
  (suspeitoAlvo : string) (contador : Z) : Z :=
  match raiz with
  | PNull => contador
  | PNo p esq dir =>
      let contador :=
        contarPistasPorSuspeitoRec_int esq tabela suspeitoAlvo contador in
      let contador :=
        match encontrarSuspeito tabela (Some p) with
        | Some s => match strcmp s suspeitoAlvo with
                    | Eq => int_wrap (contador + 1)
                    | _ => contador
                    end
        | None => contador
        end in
      contarPistasPorSuspeitoRec_int dir tabela suspeitoAlvo contador
  end.

Definition verificarSuspeitoFinal (raizPistas : PistaNode) (tabela : Tabela)
  (w : Mundo) : Mundo :=
  let w := imprimir MCabecalhoPistas w in
  let w := match raizPistas with
           | PNull => imprimir MNenhumaPistaColetada w
           | PNo _ _ _ => mkMundo (stdin w) (exibirPistas raizPistas (stdout w))
           end in
  let w := imprimir MPerguntaAcusado w in
  match fgets MAX_NOME (stdin w) with
  | (None, resto) => imprimir MErroLeitura (mkMundo resto (stdout w))
  | (Some lido, resto) =>
      let w := mkMundo resto (stdout w) in
      let acusado := strip_newline lido in
      if Nat.eqb (strlen acusado) 0 then imprimir MAcusacaoInvalida w
      else
        let cont := contarPistasPorSuspeitoRec raizPistas tabela acusado 0 in
        let w := imprimir (MAcusado acusado) w in
        let w := imprimir (MContagem acusado cont) w in
        if Z.leb 2 cont then imprimir (MCulpado acusado) w
        else imprimir (MInsuficiente acusado) w
  end.

(** ** [main] *)

(** The source file is UTF-8: the two accented letters of its literals are
    two bytes each. *)
Definition a_til : string :=
  String (ascii_of_nat 195) (String (ascii_of_nat 163) EmptyString).
Definition a_agudo : string :=
  String (ascii_of_nat 195) (String (ascii_of_nat 161) EmptyString).

Definition nome_porao : string := ("Por" ++ a_til ++ "o")%string.
Definition professor : string := ("Professor Ot" ++ a_agudo ++ "vio")%string.

(** The rooms as [main] allocates and links them; the first component is
    the pointer [hall]. *)
Definition mapa_main : nat * Casa :=
  let casa : Casa := [] in
  let '(hall, casa) := criarSala "Hall de Entrada" (Some "Pegada suja"%string) casa in
  let '(estar, casa) := criarSala "Sala de Estar" (Some "Perfume feminino caro"%string) casa in
  let '(biblioteca, casa) := criarSala "Biblioteca" (Some "Livro rasgado"%string) casa in
  let '(cozinha, casa) := criarSala "Cozinha" (Some "Copo com fragmento de esmalte"%string) casa in
  let '(jardim, casa) := criarSala "Jardim" (Some "Filtro de cigarro"%string) casa in
  let '(porao, casa) := criarSala nome_porao (Some "Luva encharcada"%string) casa in
  let casa := ligar_esquerda hall estar casa in
  let casa := ligar_direita hall biblioteca casa in
  let casa := ligar_esquerda estar cozinha casa in
  let casa := ligar_direita estar jardim casa in
  let casa := ligar_direita biblioteca porao casa in
  (hall, casa).

Definition tabela_main : Tabela :=
  let tabela := tabela_vazia in
  let tabela := inserirNaHash tabela (Some "Pegada suja"%string) (Some "Carlos"%string) in
  let tabela := inserirNaHash tabela (Some "Perfume feminino caro"%string) (Some "Dona Beatriz"%string) in
  let tabela := inserirNaHash tabela (Some "Livro rasgado"%string) (Some professor) in
  let tabela := inserirNaHash tabela (Some "Copo com fragmento de esmalte"%string) (Some "Dona Beatriz"%string) in
  let tabela := inserirNaHash tabela (Some "Filtro de cigarro"%string) (Some "Carlos"%string) in
  let tabela := inserirNaHash tabela (Some "Luva encharcada"%string) (Some professor) in
  tabela.

(** [main] on the input [entrada]: the value it returns and what it has
    printed. *)
Definition main (entrada : string) : option (Z * list Msg) :=
  let '(hall, casa) := mapa_main in
  let tabela := tabela_main in
  let raizPistas := PNull in
  let w := imprimir MBanner (mkMundo entrada []) in
  match explorarSalas casa (Some hall) raizPistas w with
  | None => None
  | Some (raizPistas, w) =>
      let w := verificarSuspeitoFinal raizPistas tabela w in
      let w := imprimir MObrigado w in
      Some (0, stdout w)
  end.

(** ** States of the clue set *)

(** The tree after the calls [inserirPista(raiz, p)] for the [p] of [ps], in
    turn, from the empty tree. *)
Definition inserirTodas (ps : list (option string)) : PistaNode :=
  foldl inserirPista PNull ps.

(** Nothing to the left is above the node, nothing to the right below. *)
Fixpoint ordenada (raiz : PistaNode) : Prop :=
  match raiz with
  | PNull => True
  | PNo p esq dir =>
      ordenada esq /\ ordenada dir /\
      Forall (fun x => str_le x p) (em_ordem esq) /\
      Forall (fun x => str_le p x) (em_ordem dir)
  end.

(** Every text in the tree fits its buffer. *)
Definition cabe (raiz : PistaNode) : Prop :=
  Forall (fun x => (String.length x < MAX_PISTA)%nat) (em_ordem raiz).

(** The same with strict bounds: a search tree without repeated texts. *)
Fixpoint estrita (raiz : PistaNode) : Prop :=
  match raiz with
  | PNull => True
  | PNo p esq dir =>
      estrita esq /\ estrita dir /\
      Forall (fun x => str_lt x p) (em_ordem esq) /\
      Forall (fun x => str_lt p x) (em_ordem dir)
  end.

(** A list in non-decreasing order of [strcmp]: no text is above a later
    one. *)
Definition crescente (l : list string) : Prop := StronglySorted str_le l.

Definition NL_s : string := String NL EmptyString.

(** Scenario A: left, left, quit, then the accusation. *)
Definition entrada_A : string :=
  String.append "e" (String.append NL_s
  (String.append "e" (String.append NL_s
  (String.append "s" (String.append NL_s
  (String.append "Dona Beatriz" NL_s)))))).

(** The message for a move with no room on that side. *)
Definition sem_caminho (opc : ascii) : Msg :=
  if Ascii.eqb opc e_min || Ascii.eqb opc e_mai then MSemCaminhoEsquerda
  else MSemCaminhoDireita.

(** ** The verdict in the words of the specification *)

(** The number of clues of the set whose lookup in the table gives exactly
    the accused name. *)
Definition contagem (tabela : Tabela) (acusado : string) (raiz : PistaNode) : nat :=
  length (filter (fun p => encontrarSuspeito tabela (Some p) = Some acusado)
                 (em_ordem raiz)).

(** What [verificarSuspeitoFinal] prints before it asks for the accused. *)
Definition listagem (raizPistas : PistaNode) : list Msg :=
  MCabecalhoPistas ::
  match raizPistas with
  | PNull => [MNenhumaPistaColetada]
  | PNo _ _ _ => MPista <$> em_ordem raizPistas
  end.

(** ** Inputs used as examples *)

Fixpoint repetir (n : nat) (c : ascii) : string :=
  match n with
  | O => EmptyString
  | S n' => String c (repetir n' c)
  end.

(** A clue text of exactly [MAX_PISTA] bytes, one more than a buffer holds,
    and its first [MAX_PISTA - 1] bytes. *)
Definition pista_longa : string := repetir MAX_PISTA (ascii_of_nat 97).
Definition pista_cheia : string := repetir (MAX_PISTA - 1) (ascii_of_nat 97).

(** ** Releasing memory *)

(** [liberarPistas]: the calls to [free] in the order they are made, each
    recorded by the text of the node it releases, after those of [livres]. *)
Fixpoint liberarPistas (raiz : PistaNode) (livres : list string) : list string :=
  match raiz with
  | PNull => livres
  | PNo p esq dir => liberarPistas dir (liberarPistas esq livres) ++ [p]
  end.

(** The [while (p)] loop of [liberarTabelaHash] over one chain: every entry
    is released, head first. *)
Fixpoint liberar_cadeia (p : list HashEntry) (livres : list HashEntry)
  : list HashEntry :=
  match p with
  | [] => livres
  | tmp :: prox => liberar_cadeia prox (livres ++ [tmp])
  end.

(** [n] turns of the [for] loop of [liberarTabelaHash], from bucket [i]. *)
Fixpoint liberar_laco (n i : nat) (tabela : Tabela) (livres : list HashEntry)
  : Tabela * list HashEntry :=
  match n with
  | O => (tabela, livres)
  | S n' =>
      let livres := liberar_cadeia (balde tabela i) livres in
      liberar_laco n' (S i) (<[i := []]> tabela) livres
  end.

(** [liberarTabelaHash]: the table it leaves and the entries it released. *)
Definition liberarTabelaHash (tabela : Tabela) : Tabela * list HashEntry :=
  liberar_laco (Z.to_nat HASH_SIZE) 0 tabela [].

(** ** Sequences of calls, and what they are compared with *)

(** The table after the calls [inserirNaHash(tabela, p, s)] for the pairs of
    [l], in turn. *)
Definition inserirVarias (tabela : Tabela)
  (l : list (option string * option string)) : Tabela :=
  foldl (fun t ps => inserirNaHash t (fst ps) (snd ps)) tabela l.

(** The suspect of the last pair of [l] whose clue is [q], cut to its
    buffer; pairs with a null component do not count. *)
Fixpoint ultimo (q : string) (l : list (option string * option string))
  : option string :=
  match l with
  | [] => None
  | (Some p, Some s) :: r =>
      match ultimo q r with
      | Some x => Some x
      | None => if decide (p = q) then Some (strncpy s (MAX_NOME - 1)) else None
      end
  | _ :: r => ultimo q r
  end.

(** Every entry is in the bucket of its key, and no bucket holds a key
    twice. *)
Definition tabela_inv (tabela : Tabela) : Prop :=
  length tabela = Z.to_nat HASH_SIZE /\
  forall i cadeia, tabela !! i = Some cadeia ->
    NoDup (h_pista <$> cadeia) /\
    Forall (fun k => indice k = i) (h_pista <$> cadeia).

(** Every byte of [s] passes the test [P]. *)
Fixpoint todos (P : ascii -> bool) (s : string) : bool :=
  match s with
  | EmptyString => true
  | String c r => P c && todos P r
  end.

Definition nao_NL (c : ascii) : bool := negb (Ascii.eqb c NL).
Definition nao_NL_nem_NUL (c : ascii) : bool :=
  negb (Ascii.eqb c NL) && negb (Ascii.eqb c Ascii.zero).

(** A byte that is one of the six commands. *)
Definition comando (opc : ascii) : bool :=
  Ascii.eqb opc e_min || Ascii.eqb opc e_mai || Ascii.eqb opc d_min ||
  Ascii.eqb opc d_mai || Ascii.eqb opc s_min || Ascii.eqb opc s_mai.

(** The clue set and the streams a turn of the loop ends with. *)
Definition raiz_de (r : Passo) : PistaNode :=
  match r with
  | Continua _ raizPistas _ => raizPistas
  | Encerra raizPistas _ => raizPistas
  end.

Definition mundo_de (r : Passo) : Mundo :=
  match r with
  | Continua _ _ w => w
  | Encerra _ w => w
  end.

(** A script of moves, [true] for the left and [false] for the right: the
    bytes typed for it, one command per line. *)
Fixpoint teclas (lados : list bool) (resto : string) : string :=
  match lados with
  | [] => resto
  | lado :: r => String (if lado then e_min else d_min) (String NL (teclas r resto))
  end.

(** The clues of the rooms entered along a script of moves from the room
    [atual], in the order of the entries; a move towards a side with no
    room enters the same room again. *)
Fixpoint rota (casa : Casa) (lados : list bool) (atual : nat) : list (option string) :=
  match casa !! atual with
  | None => []
  | Some sala =>
      Some (s_pista sala) ::
      match lados with
      | [] => []
      | lado :: r =>
          match (if lado then s_esquerda sala else s_direita sala) with
          | Some q => rota casa r q
          | None => rota casa r atual
          end
      end
  end.

(** Rooms entered one after the other from the room [atual]: each is the
    room before it again, or one of its two children. *)
Fixpoint caminho (casa : Casa) (atual : nat) (visitas : list nat) : Prop :=
  match visitas with
  | [] => True
  | q :: r =>
      (exists sala, casa !! atual = Some sala /\
         (q = atual \/ s_esquerda sala = Some q \/ s_direita sala = Some q)) /\
      caminho casa q r
  end.

(** The clues of the rooms [visitas], in that order. *)
Definition pistas_de (casa : Casa) (visitas : list nat) : list (option string) :=
  (fun i => s_pista <$> casa !! i) <$> visitas.


(** The value computed by [hash_string] on the bytes of [s], from [h],
    without wrap-around: [h * 33 + c] at every byte. *)
Fixpoint polinomio (s : string) (h : Z) : Z :=
  match s with
  | EmptyString => h
  | String c r => polinomio r (h * 33 + Z.of_N (N_of_ascii c))
  end.

(** * Properties *)

(** ** [strcmp] is a total order, and truncation is monotone *)

Section StrcmpFacts.

Local Ltac bytes x y :=
  destruct (N.compare_spec (N_of_ascii x) (N_of_ascii y)).

Lemma N_of_ascii_inj (x y : ascii) : N_of_ascii x = N_of_ascii y -> x = y.
Proof.
  intros H. rewrite <- (ascii_N_embedding x), <- (ascii_N_embedding y).
  now rewrite H.
Qed.

Lemma strcmp_refl (s : string) : strcmp s s = Eq.
Proof.
  induction s as [|c s IH]; simpl; [reflexivity|].
  now rewrite N.compare_refl.
Qed.

Lemma strcmp_eq (a b : string) : strcmp a b = Eq <-> a = b.
Proof.
  split; [|intros ->; apply strcmp_refl].
  revert b; induction a as [|x a IH]; intros [|y b]; simpl; try discriminate.
  - reflexivity.
  - bytes x y; try discriminate.
    intros H0. f_equal; [now apply N_of_ascii_inj | now apply IH].
Qed.

Lemma strcmp_antisym (a b : string) : strcmp b a = CompOpp (strcmp a b).
Proof.
  revert b; induction a as [|x a IH]; intros [|y b]; simpl; try reflexivity.
  rewrite (N.compare_antisym (N_of_ascii x) (N_of_ascii y)).
  bytes x y; simpl; auto.
Qed.

Lemma str_lt_trans (a b c : string) : str_lt a b -> str_lt b c -> str_lt a c.
Proof.
  unfold str_lt. revert b c.
  induction a as [|x a IH]; intros [|y b] [|z c]; simpl; try discriminate; auto.
  bytes x y; bytes y z; bytes x z; try discriminate; try lia; eauto.
Qed.

Lemma str_le_refl (a : string) : str_le a a.
Proof. unfold str_le. now rewrite strcmp_refl. Qed.

Lemma str_lt_le (a b : string) : str_lt a b -> str_le a b.
Proof. unfold str_lt, str_le. congruence. Qed.

Lemma str_le_cases (a b : string) : str_le a b -> a = b \/ str_lt a b.
Proof.
  unfold str_le, str_lt. destruct (strcmp a b) eqn:E; try tauto.
  left. now apply strcmp_eq.
Qed.

Lemma str_le_trans (a b c : string) : str_le a b -> str_le b c -> str_le a c.
Proof.
  intros [->|Hab]%str_le_cases [->|Hbc]%str_le_cases;
    eauto using str_le_refl, str_lt_le, str_lt_trans.
Qed.

Lemma str_lt_le_trans (a b c : string) : str_lt a b -> str_le b c -> str_lt a c.
Proof. intros Hab [->|Hbc]%str_le_cases; eauto using str_lt_trans. Qed.

Lemma str_le_lt_trans (a b c : string) : str_le a b -> str_lt b c -> str_lt a c.
Proof. intros [->|Hab]%str_le_cases Hbc; eauto using str_lt_trans. Qed.

Lemma strcmp_gt_lt (a b : string) : strcmp a b = Gt <-> str_lt b a.
Proof.
  unfold str_lt. rewrite (strcmp_antisym a b).
  destruct (strcmp a b); simpl; split; congruence.
Qed.

Lemma str_lt_irrefl (a : string) : ~ str_lt a a.
Proof. unfold str_lt. now rewrite strcmp_refl. Qed.

Lemma str_lt_not_le (a b : string) : str_lt a b -> ~ str_le b a.
Proof.
  intros Hab Hba. apply (str_lt_irrefl a). eapply str_lt_le_trans; eauto.
Qed.

Lemma strncpy_length (s : string) (n : nat) :
  (String.length (strncpy s n) <= n)%nat.
Proof.
  revert s; induction n as [|n IH]; intros [|c s]; simpl; try lia.
  specialize (IH s). lia.
Qed.

Lemma strncpy_short (s : string) (n : nat) :
  (String.length s <= n)%nat -> strncpy s n = s.
Proof.
  revert s; induction n as [|n IH]; intros [|c s]; simpl; try reflexivity; try lia.
  intros H. f_equal. apply IH. lia.
Qed.

Lemma strncpy_long (s : string) (n : nat) :
  (n < String.length s)%nat -> strncpy s n <> s.
Proof.
  intros H E. pose proof (strncpy_length s n) as L. rewrite E in L. lia.
Qed.

(** Cutting both strings at the same length keeps their order, weakly. *)
Lemma strncpy_mono (a b : string) (n : nat) :
  str_le a b -> str_le (strncpy a n) (strncpy b n).
Proof.
  unfold str_le. revert a b.
  induction n as [|n IH]; intros [|x a] [|y b]; simpl; try congruence.
  bytes x y; try congruence. apply IH.
Qed.

(** A prefix is never above the whole. *)
Lemma strncpy_le (a : string) (n : nat) : str_le (strncpy a n) a.
Proof.
  unfold str_le. revert a.
  induction n as [|n IH]; intros [|x a]; simpl; try congruence.
  rewrite N.compare_refl. apply IH.
Qed.

(** A string longer than [n] is strictly above its first [n] bytes. *)
Lemma strncpy_lt (a : string) (n : nat) :
  (n < String.length a)%nat -> str_lt (strncpy a n) a.
Proof.
  intros H. destruct (str_le_cases _ _ (strncpy_le a n)) as [E|]; auto.
  now apply strncpy_long in E.
Qed.

Lemma strncpy_cabe (s : string) (n : nat) :
  (String.length (strncpy s (n - 1)) < n)%nat \/ n = O.
Proof. pose proof (strncpy_length s (n - 1)). lia. Qed.

Lemma strncpy_cabe_nome (s : string) :
  (String.length (strncpy s (MAX_NOME - 1)) < MAX_NOME)%nat.
Proof. now destruct (strncpy_cabe s MAX_NOME). Qed.

Lemma strncpy_cabe_pista (s : string) :
  (String.length (strncpy s (MAX_PISTA - 1)) < MAX_PISTA)%nat.
Proof. now destruct (strncpy_cabe s MAX_PISTA). Qed.

Lemma strncpy_pista_curta (s : string) :
  (String.length s < MAX_PISTA)%nat -> strncpy s (MAX_PISTA - 1) = s.
Proof. intros H. apply strncpy_short. unfold MAX_PISTA in *. lia. Qed.

Lemma strncpy_nome_curto (s : string) :
  (String.length s < MAX_NOME)%nat -> strncpy s (MAX_NOME - 1) = s.
Proof. intros H. apply strncpy_short. unfold MAX_NOME in *. lia. Qed.

End StrcmpFacts.

(** ** The clue set *)

Section ClueSet.

Implicit Types (raiz esq dir : PistaNode) (p x : string).

Lemma inserirPista_vazia raiz : inserirPista raiz (Some EmptyString) = raiz.
Proof. now destruct raiz. Qed.

Lemma inserirPista_NULL raiz : inserirPista raiz None = raiz.
Proof. now destruct raiz. Qed.

Lemma inserirPista_folha p :
  p <> EmptyString ->
  inserirPista PNull (Some p) = PNo (strncpy p (MAX_PISTA - 1)) PNull PNull.
Proof. now destruct p. Qed.

Lemma inserirPista_no p rp esq dir :
  p <> EmptyString ->
  inserirPista (PNo rp esq dir) (Some p) =
  match strcmp p rp with
  | Lt => PNo rp (inserirPista esq (Some p)) dir
  | Gt => PNo rp esq (inserirPista dir (Some p))
  | Eq => PNo rp esq dir
  end.
Proof. now destruct p. Qed.

Lemma exibirPistas_em_ordem raiz (out : list Msg) :
  exibirPistas raiz out = out ++ (MPista <$> em_ordem raiz).
Proof.
  revert out; induction raiz as [|p esq IHe dir IHd]; intros out; simpl.
  - now rewrite app_nil_r.
  - rewrite IHd, IHe, fmap_app, <- !app_assoc. reflexivity.
Qed.

Lemma MPista_elem p (l : list string) : MPista p ∈ MPista <$> l <-> p ∈ l.
Proof.
  rewrite list_elem_of_fmap. split.
  - intros (y & [= ->] & Hy). exact Hy.
  - intros H. eauto.
Qed.

(** Whatever an insertion adds is the truncated text. *)
Lemma inserirPista_elem raiz p x :
  x ∈ em_ordem (inserirPista raiz (Some p)) ->
  x ∈ em_ordem raiz \/ (p <> EmptyString /\ x = strncpy p (MAX_PISTA - 1)).
Proof.
  destruct (decide (p = EmptyString)) as [->|Hp].
  { rewrite inserirPista_vazia. auto. }
  induction raiz as [|rp esq IHe dir IHd].
  - rewrite inserirPista_folha by assumption. simpl.
    intros ->%list_elem_of_singleton. auto.
  - rewrite inserirPista_no by assumption.
    destruct (strcmp p rp); simpl; auto;
      rewrite !elem_of_app, !elem_of_cons; intuition.
Qed.

(** An insertion removes nothing. *)
Lemma inserirPista_mantem raiz (pista : option string) x :
  x ∈ em_ordem raiz -> x ∈ em_ordem (inserirPista raiz pista).
Proof.
  destruct pista as [p|]; [|now rewrite inserirPista_NULL].
  destruct (decide (p = EmptyString)) as [->|Hp].
  { now rewrite inserirPista_vazia. }
  induction raiz as [|rp esq IHe dir IHd].
  - intros H. inversion H.
  - rewrite inserirPista_no by assumption.
    destruct (strcmp p rp); simpl; auto;
      rewrite !elem_of_app, !elem_of_cons; intuition.
Qed.

Lemma inserirPista_cabe raiz (pista : option string) :
  cabe raiz -> cabe (inserirPista raiz pista).
Proof.
  unfold cabe. intros H.
  destruct pista as [p|]; [|now rewrite inserirPista_NULL].
  apply Forall_forall. intros x [Hx|[_ ->]]%inserirPista_elem.
  - revert x Hx. now apply Forall_forall.
  - pose proof (strncpy_length p (MAX_PISTA - 1)). unfold MAX_PISTA in *. lia.
Qed.

(** A text that fits is in the set after its insertion. *)
Lemma inserirPista_contem raiz p :
  p <> EmptyString -> (String.length p < MAX_PISTA)%nat ->
  p ∈ em_ordem (inserirPista raiz (Some p)).
Proof.
  intros Hp Hlen. induction raiz as [|rp esq IHe dir IHd].
  - rewrite inserirPista_folha by assumption. simpl.
    rewrite strncpy_short by (unfold MAX_PISTA in *; lia). apply list_elem_of_here.
  - rewrite inserirPista_no by assumption.
    destruct (strcmp p rp) eqn:E; simpl;
      rewrite !elem_of_app, !elem_of_cons; auto.
    apply strcmp_eq in E. auto.
Qed.

(** In a tree whose texts fit, the truncated text is in the set after the
    insertion of any text. *)
Lemma inserirPista_contem_trunc raiz p :
  p <> EmptyString -> cabe raiz ->
  strncpy p (MAX_PISTA - 1) ∈ em_ordem (inserirPista raiz (Some p)).
Proof.
  intros Hp. induction raiz as [|rp esq IHe dir IHd]; intros Hc.
  - rewrite inserirPista_folha by assumption. simpl. apply list_elem_of_here.
  - rewrite inserirPista_no by assumption.
    unfold cabe in Hc. simpl in Hc.
    apply Forall_app in Hc as [Hce Hcd]. apply Forall_cons in Hcd as [Hrp Hcd].
    destruct (strcmp p rp) eqn:E; simpl;
      rewrite !elem_of_app, !elem_of_cons; auto.
    apply strcmp_eq in E. subst rp.
    rewrite strncpy_short by (unfold MAX_PISTA in *; lia). auto.
Qed.

Lemma inserirPista_ordenada raiz (pista : option string) :
  cabe raiz -> ordenada raiz -> ordenada (inserirPista raiz pista).
Proof.
  destruct pista as [p|]; [|now rewrite inserirPista_NULL].
  destruct (decide (p = EmptyString)) as [->|Hp].
  { now rewrite inserirPista_vazia. }
  induction raiz as [|rp esq IHe dir IHd]; intros Hc Ho.
  - rewrite inserirPista_folha by assumption. simpl. auto.
  - rewrite inserirPista_no by assumption.
    unfold cabe in Hc. simpl in Hc.
    apply Forall_app in Hc as [Hce Hcd]. apply Forall_cons in Hcd as [Hrp Hcd].
    destruct Ho as (Hoe & Hod & Hle & Hge).
    destruct (strcmp p rp) eqn:E; simpl; auto.
    + repeat split; auto.
      rewrite Forall_forall in *. intros x [Hx|[_ ->]]%inserirPista_elem; auto.
      apply str_le_trans with p; [apply strncpy_le | now apply str_lt_le].
    + repeat split; auto.
      rewrite Forall_forall in *. intros x [Hx|[_ ->]]%inserirPista_elem; auto.
      rewrite <- (strncpy_short rp (MAX_PISTA - 1)) at 1
        by (unfold MAX_PISTA in *; lia).
      apply strncpy_mono, str_lt_le. now apply strcmp_gt_lt.
Qed.

Lemma inserirPista_estrita raiz p :
  (String.length p < MAX_PISTA)%nat ->
  estrita raiz -> estrita (inserirPista raiz (Some p)).
Proof.
  intros Hlen.
  destruct (decide (p = EmptyString)) as [->|Hp].
  { now rewrite inserirPista_vazia. }
  induction raiz as [|rp esq IHe dir IHd]; intros Ho.
  - rewrite inserirPista_folha by assumption. simpl. auto.
  - rewrite inserirPista_no by assumption.
    destruct Ho as (Hoe & Hod & Hle & Hge).
    destruct (strcmp p rp) eqn:E; simpl; auto.
    + repeat split; auto.
      rewrite Forall_forall in *. intros x [Hx|[_ ->]]%inserirPista_elem; auto.
      rewrite strncpy_short by (unfold MAX_PISTA in *; lia). exact E.
    + repeat split; auto.
      rewrite Forall_forall in *. intros x [Hx|[_ ->]]%inserirPista_elem; auto.
      rewrite strncpy_short by (unfold MAX_PISTA in *; lia).
      now apply strcmp_gt_lt.
Qed.

Lemma estrita_NoDup raiz : estrita raiz -> NoDup (em_ordem raiz).
Proof.
  induction raiz as [|p esq IHe dir IHd]; simpl.
  - intros _. constructor.
  - intros (He & Hd & Hlt & Hgt). rewrite Forall_forall in Hlt, Hgt.
    apply NoDup_app. split; [auto|]. split.
    + intros x Hx [->|Hxd]%elem_of_cons.
      * now apply (str_lt_irrefl p), Hlt.
      * apply (str_lt_irrefl x).
        apply str_lt_trans with p; auto.
    + apply NoDup_cons. split; [|auto].
      intros Hp. now apply (str_lt_irrefl p), Hgt.
Qed.

Lemma ordenada_crescente raiz : ordenada raiz -> crescente (em_ordem raiz).
Proof.
unfold crescente. induction raiz as [|p esq IHe dir IHd]; simpl; [constructor|].
intros (He & Hd & Hle & Hge). rewrite Forall_forall in Hle, Hge.
apply StronglySorted_app. split; [|split]; auto.
- intros x y Hx [->|Hy]%elem_of_cons; [auto|].
  apply str_le_trans with p; auto.
- apply StronglySorted_cons. split; auto. now apply Forall_forall.
Qed.

(** Inserting a text the set already holds changes nothing. *)
Lemma inserirPista_presente raiz p :
  ordenada raiz -> p ∈ em_ordem raiz -> inserirPista raiz (Some p) = raiz.
Proof.
  destruct (decide (p = EmptyString)) as [->|Hp].
  { now rewrite inserirPista_vazia. }
  induction raiz as [|rp esq IHe dir IHd]; simpl em_ordem.
  - intros _ H. inversion H.
  - intros (He & Hd & Hle & Hge) Hin.
    rewrite Forall_forall in Hle, Hge.
    rewrite inserirPista_no by assumption.
    destruct (strcmp p rp) eqn:E; [reflexivity| |].
    + f_equal. apply IHe; [assumption|].
      apply elem_of_app in Hin as [Hin|[->|Hin]%elem_of_cons]; [assumption| |].
      * now apply str_lt_irrefl in E.
      * exfalso. apply (str_lt_not_le _ _ E). auto.
    + apply strcmp_gt_lt in E. f_equal. apply IHd; [assumption|].
      apply elem_of_app in Hin as [Hin|[->|Hin]%elem_of_cons]; [| |assumption].
      * exfalso. apply (str_lt_not_le _ _ E). auto.
      * now apply str_lt_irrefl in E.
Qed.

(** *** Along a sequence of insertions *)

Lemma inserirTodas_snoc (ps : list (option string)) (pista : option string) :
  inserirTodas (ps ++ [pista]) = inserirPista (inserirTodas ps) pista.
Proof. unfold inserirTodas. now rewrite foldl_app. Qed.

Lemma inserirTodas_app (ps qs : list (option string)) :
  inserirTodas (ps ++ qs) = foldl inserirPista (inserirTodas ps) qs.
Proof. unfold inserirTodas. now rewrite foldl_app. Qed.

Lemma inserirTodas_cabe (ps : list (option string)) : cabe (inserirTodas ps).
Proof.
  induction ps as [|pista ps IH] using rev_ind.
  - constructor.
  - rewrite inserirTodas_snoc. now apply inserirPista_cabe.
Qed.

Lemma inserirTodas_ordenada (ps : list (option string)) :
  ordenada (inserirTodas ps).
Proof.
  induction ps as [|pista ps IH] using rev_ind.
  - exact I.
  - rewrite inserirTodas_snoc.
    apply inserirPista_ordenada; [apply inserirTodas_cabe | assumption].
Qed.

Lemma inserirTodas_estrita (ps : list (option string)) :
  (forall p, Some p ∈ ps -> (String.length p < MAX_PISTA)%nat) ->
  estrita (inserirTodas ps).
Proof.
  induction ps as [|pista ps IH] using rev_ind; intros H.
  - exact I.
  - rewrite inserirTodas_snoc.
    assert (estrita (inserirTodas ps)) as Hs.
    { apply IH. intros p Hp. apply H, elem_of_app. auto. }
    destruct pista as [p|]; [|now rewrite inserirPista_NULL].
    apply inserirPista_estrita; [|assumption].
    apply H, elem_of_app. right. apply list_elem_of_here.
Qed.

Lemma inserirTodas_contem (ps : list (option string)) p :
  Some p ∈ ps -> p <> EmptyString -> (String.length p < MAX_PISTA)%nat ->
  p ∈ em_ordem (inserirTodas ps).
Proof.
  induction ps as [|pista ps IH] using rev_ind; intros Hin Hp Hlen.
  - inversion Hin.
  - rewrite inserirTodas_snoc.
    apply elem_of_app in Hin as [Hin|Hin%list_elem_of_singleton].
    + apply inserirPista_mantem. auto.
    + subst pista. now apply inserirPista_contem.
Qed.

Lemma inserirTodas_contem_trunc (ps : list (option string)) p :
  Some p ∈ ps -> p <> EmptyString ->
  strncpy p (MAX_PISTA - 1) ∈ em_ordem (inserirTodas ps).
Proof.
  induction ps as [|pista ps IH] using rev_ind; intros Hin Hp.
  - inversion Hin.
  - rewrite inserirTodas_snoc.
    apply elem_of_app in Hin as [Hin|Hin%list_elem_of_singleton].
    + apply inserirPista_mantem. auto.
    + subst pista. apply inserirPista_contem_trunc; [assumption|].
      apply inserirTodas_cabe.
Qed.

End ClueSet.

(** ** Claims on the clue set *)

Lemma foldl_inserirPista_mantem (qs : list (option string)) (raiz : PistaNode)
  (x : string) :
  x ∈ em_ordem raiz -> x ∈ em_ordem (foldl inserirPista raiz qs).
Proof.
  revert raiz; induction qs as [|q qs IH]; intros raiz H; simpl; [assumption|].
  apply IH. now apply inserirPista_mantem.
Qed.

Lemma entrarSala_fst (sala : Sala) (raizPistas : PistaNode) (w : Mundo) :
  fst (entrarSala sala raizPistas w) = inserirPista raizPistas (Some (s_pista sala)).
Proof.
  unfold entrarSala. destruct (s_pista sala); simpl; [|reflexivity].
  now rewrite inserirPista_vazia.
Qed.

Lemma entrarSala_stdin (sala : Sala) (raizPistas : PistaNode) (w : Mundo) :
  stdin (snd (entrarSala sala raizPistas w)) = stdin w.
Proof. unfold entrarSala. now destruct (s_pista sala). Qed.

(** C2, as the code has it. After any sequence of insertions, the listing
    printed by [exibirPistas] shows the first 127 bytes of every non-empty
    text that was inserted; when the texts inserted are each at most 127
    bytes long, the listing repeats no clue text and shows every non-empty
    text that was inserted. *)
Theorem C2_clue_set_sem_repeticao (ps : list (option string)) :
  (forall p, Some p ∈ ps -> p <> EmptyString ->
             MPista (strncpy p (MAX_PISTA - 1)) ∈ exibirPistas (inserirTodas ps) []) /\
  ((forall p, Some p ∈ ps -> (String.length p < MAX_PISTA)%nat) ->
   NoDup (exibirPistas (inserirTodas ps) []) /\
   (forall p, Some p ∈ ps -> p <> EmptyString ->
              MPista p ∈ exibirPistas (inserirTodas ps) [])).
Proof.
  rewrite exibirPistas_em_ordem. simpl. split.
  - intros p Hin Hp. now apply MPista_elem, inserirTodas_contem_trunc.
  - intros Hlen. split.
    + apply NoDup_fmap_2.
      * intros x y [= ->]. reflexivity.
      * apply estrita_NoDup, inserirTodas_estrita, Hlen.
    + intros p Hin Hp. apply MPista_elem, inserirTodas_contem; auto.
Qed.

Lemma C2_clue_set_sem_repeticao_witness :
  let ps := [Some "b"%string; Some "a"%string; None; Some "b"%string;
             Some EmptyString; Some "ab"%string] in
  MPista pista_cheia ∈ exibirPistas (inserirTodas [Some pista_longa]) [] /\
  NoDup (exibirPistas (inserirTodas ps) []) /\
  (forall p, Some p ∈ ps -> p <> EmptyString ->
             MPista p ∈ exibirPistas (inserirTodas ps) []).
Proof.
  intros ps. split.
  - apply (proj1 (C2_clue_set_sem_repeticao [Some pista_longa]) pista_longa).
    + apply list_elem_of_here.
    + vm_compute. discriminate.
  - apply (proj2 (C2_clue_set_sem_repeticao ps)).
    intros p Hp. unfold ps in Hp.
    repeat (apply elem_of_cons in Hp as [Hp|Hp];
            [try discriminate; injection Hp as ->; vm_compute; lia|]).
    inversion Hp.
Defined.

(** C2 as stated fails on a text of 128 bytes inserted twice: the listing
    shows its first 127 bytes twice, and never the text itself. *)
Lemma C2_counterexample :
  let ps := [Some pista_longa; Some pista_longa] in
  exibirPistas (inserirTodas ps) [] = [MPista pista_cheia; MPista pista_cheia] /\
  ~ NoDup (exibirPistas (inserirTodas ps) []) /\
  ~ MPista pista_longa ∈ exibirPistas (inserirTodas ps) [].
Proof.
  assert (exibirPistas (inserirTodas [Some pista_longa; Some pista_longa]) []
          = [MPista pista_cheia; MPista pista_cheia]) as E by (vm_compute; reflexivity).
  cbv zeta. rewrite E. split; [reflexivity|]. split.
  - intros H. apply NoDup_cons in H as [H _]. apply H, list_elem_of_here.
  - intros H. repeat (apply elem_of_cons in H as [H|H]; [vm_compute in H; discriminate|]).
    inversion H.
Qed.

(** C3. For the clue set reached by any sequence of insertions,
    [exibirPistas] prints the texts of the tree in non-decreasing order of
    [strcmp]; it only reads the tree, so a second listing of the same tree
    prints the same sequence again. *)
Theorem C3_listagem_crescente (ps : list (option string)) (out : list Msg) :
  exibirPistas (inserirTodas ps) out = out ++ (MPista <$> em_ordem (inserirTodas ps)) /\
  crescente (em_ordem (inserirTodas ps)) /\
  exibirPistas (inserirTodas ps) (exibirPistas (inserirTodas ps) out) =
    exibirPistas (inserirTodas ps) out ++ (MPista <$> em_ordem (inserirTodas ps)).
Proof.
  split; [apply exibirPistas_em_ordem|]. split.
  - apply ordenada_crescente, inserirTodas_ordenada.
  - apply exibirPistas_em_ordem.
Qed.

(** C6. Inserting a text that the clue set already holds leaves the tree as
    it was; so once a room has been entered, entering it again, whatever
    was collected in between, leaves the clue set as it was. *)
Theorem C6_inserir_presente (ps qs : list (option string)) (p : string)
  (sala : Sala) (w w' : Mundo) :
  MPista p ∈ exibirPistas (inserirTodas ps) [] ->
  sala_ok sala ->
  inserirPista (inserirTodas ps) (Some p) = inserirTodas ps /\
  (let raiz1 := fst (entrarSala sala (inserirTodas ps) w) in
   let raiz2 := foldl inserirPista raiz1 qs in
   fst (entrarSala sala raiz2 w') = raiz2).
Proof.
  intros Hp [_ Hlen]. split.
  - apply inserirPista_presente; [apply inserirTodas_ordenada|].
    rewrite exibirPistas_em_ordem in Hp. now apply MPista_elem in Hp.
  - cbv zeta. rewrite !entrarSala_fst.
    destruct (decide (s_pista sala = EmptyString)) as [E|E].
    { rewrite E. now rewrite !inserirPista_vazia. }
    rewrite <- inserirTodas_snoc, <- inserirTodas_app.
    apply inserirPista_presente; [apply inserirTodas_ordenada|].
    rewrite inserirTodas_app. apply foldl_inserirPista_mantem.
    rewrite inserirTodas_snoc. now apply inserirPista_contem.
Qed.

Lemma C6_inserir_presente_witness :
  let ps := [Some "Pegada suja"%string; Some "Livro rasgado"%string] in
  let qs := [Some "Luva encharcada"%string] in
  let sala := mkSala "Biblioteca" "Livro rasgado" None (Some 5%nat) in
  let w := mkMundo EmptyString [] in
  inserirPista (inserirTodas ps) (Some "Pegada suja"%string) = inserirTodas ps /\
  (let raiz1 := fst (entrarSala sala (inserirTodas ps) w) in
   let raiz2 := foldl inserirPista raiz1 qs in
   fst (entrarSala sala raiz2 w) = raiz2).
Proof.
  intros ps qs sala w.
  apply (C6_inserir_presente ps qs "Pegada suja" sala w w).
  - vm_compute. apply list_elem_of_further, list_elem_of_here.
  - split; vm_compute; lia.
Defined.

(** ** The suspect table *)

Section SuspectTable.

Implicit Types (tabela : Tabela) (cadeia : list HashEntry) (p s x : string).

Lemma indice_lt p : (indice p < Z.to_nat HASH_SIZE)%nat.
Proof.
  unfold indice, HASH_SIZE.
  pose proof (Z.mod_pos_bound (hash_string p) 101 ltac:(lia)). lia.
Qed.

Lemma tabela_vazia_ok : tabela_ok tabela_vazia.
Proof.
  split; [apply length_replicate|]. apply Forall_replicate. constructor.
Qed.

Lemma balde_insert tabela h cadeia :
  (h < length tabela)%nat -> balde (<[h := cadeia]> tabela) h = cadeia.
Proof. intros H. unfold balde. now rewrite list_lookup_insert_eq. Qed.

Lemma balde_insert_ne tabela h h' cadeia :
  h <> h' -> balde (<[h := cadeia]> tabela) h' = balde tabela h'.
Proof. intros H. unfold balde. now rewrite list_lookup_insert_ne. Qed.

Lemma balde_lookup tabela h :
  (h < length tabela)%nat -> tabela !! h = Some (balde tabela h).
Proof.
  intros H. unfold balde.
  destruct (lookup_lt_is_Some_2 tabela h H) as [c ->]. reflexivity.
Qed.

(** *** The two loops over a chain *)

Lemma sobrescrever_procurar cadeia p s :
  sobrescrever cadeia p s = None <-> procurar cadeia p = None.
Proof.
  induction cadeia as [|e prox IH]; simpl; [tauto|].
  destruct (strcmp (h_pista e) p); try (split; discriminate);
    rewrite <- IH; destruct (sobrescrever prox p s); split; congruence.
Qed.

Lemma sobrescrever_Some cadeia cadeia' p s :
  sobrescrever cadeia p s = Some cadeia' ->
  procurar cadeia' p = Some (strncpy s (MAX_NOME - 1)) /\
  h_pista <$> cadeia' = h_pista <$> cadeia.
Proof.
  revert cadeia'; induction cadeia as [|e prox IH]; intros cadeia'; simpl;
    [discriminate|].
  destruct (strcmp (h_pista e) p) eqn:E.
  - intros [= <-]. simpl. now rewrite E.
  - destruct (sobrescrever prox p s) as [prox'|]; [|discriminate].
    intros [= <-]. simpl procurar. rewrite E.
    destruct (IH prox' eq_refl) as [H1 H2].
    split; [exact H1 | now rewrite !fmap_cons, H2].
  - destruct (sobrescrever prox p s) as [prox'|]; [|discriminate].
    intros [= <-]. simpl procurar. rewrite E.
    destruct (IH prox' eq_refl) as [H1 H2].
    split; [exact H1 | now rewrite !fmap_cons, H2].
Qed.

Lemma sobrescrever_ok cadeia cadeia' p s :
  sobrescrever cadeia p s = Some cadeia' ->
  Forall entrada_ok cadeia -> Forall entrada_ok cadeia'.
Proof.
  revert cadeia'; induction cadeia as [|e prox IH]; intros cadeia'; simpl;
    [discriminate|].
  intros H [He Hprox]%Forall_cons.
  assert (entrada_ok (mkEntry (h_pista e) (strncpy s (MAX_NOME - 1)))) as Hnovo.
  { split; [apply He | apply strncpy_cabe_nome]. }
  destruct (strcmp (h_pista e) p).
  - injection H as <-. now constructor.
  - destruct (sobrescrever prox p s) as [prox'|]; [|discriminate].
    injection H as <-. constructor; auto.
  - destruct (sobrescrever prox p s) as [prox'|]; [|discriminate].
    injection H as <-. constructor; auto.
Qed.

Lemma procurar_Some cadeia p s :
  procurar cadeia p = Some s -> exists e, e ∈ cadeia /\ h_pista e = p /\ h_suspeito e = s.
Proof.
  induction cadeia as [|e prox IH]; simpl; [discriminate|].
  destruct (strcmp (h_pista e) p) eqn:E.
  - intros [= <-]. apply strcmp_eq in E. exists e. split; [apply list_elem_of_here | auto].
  - intros (e' & ? & ?)%IH. exists e'. split; [now apply list_elem_of_further | auto].
  - intros (e' & ? & ?)%IH. exists e'. split; [now apply list_elem_of_further | auto].
Qed.

(** A text too long for the key buffer equals no stored key. *)
Lemma procurar_longa cadeia p :
  Forall entrada_ok cadeia -> (MAX_PISTA <= String.length p)%nat ->
  procurar cadeia p = None.
Proof.
  intros Hok Hlen. destruct (procurar cadeia p) as [s|] eqn:E; [|reflexivity].
  apply procurar_Some in E as (e & He & <- & _).
  rewrite Forall_forall in Hok. destruct (Hok e He). lia.
Qed.

(** *** The keys of a table *)

Lemma chaves_app (t1 t2 : Tabela) : chaves (t1 ++ t2) = chaves t1 ++ chaves t2.
Proof. unfold chaves. now rewrite concat_app, fmap_app. Qed.

Lemma chaves_cons cadeia tabela :
  chaves (cadeia :: tabela) = (h_pista <$> cadeia) ++ chaves tabela.
Proof. unfold chaves. simpl. now rewrite fmap_app. Qed.

Lemma chaves_insert tabela h cadeia :
  (h < length tabela)%nat ->
  chaves (<[h := cadeia]> tabela) =
  chaves (take h tabela) ++ (h_pista <$> cadeia) ++ chaves (drop (S h) tabela).
Proof.
  intros H. rewrite insert_take_drop by assumption.
  now rewrite chaves_app, chaves_cons.
Qed.

Lemma chaves_balde tabela h :
  (h < length tabela)%nat ->
  chaves tabela =
  chaves (take h tabela) ++ (h_pista <$> balde tabela h) ++ chaves (drop (S h) tabela).
Proof.
  intros H.
  rewrite <- (take_drop_middle tabela h (balde tabela h)) at 1
    by now apply balde_lookup.
  now rewrite chaves_app, chaves_cons.
Qed.

Lemma num_chaves_ext (t1 t2 : Tabela) :
  (forall x, x ∈ chaves t1 <-> x ∈ chaves t2) -> num_chaves t1 = num_chaves t2.
Proof.
  intros H. unfold num_chaves. apply Permutation_length, NoDup_Permutation.
  - apply NoDup_remove_dups.
  - apply NoDup_remove_dups.
  - intros x. rewrite !elem_of_remove_dups. apply H.
Qed.

(** The keys after [inserirNaHash]: those before, and the truncated text
    when no stored key equals the argument. *)
Lemma chaves_inserirNaHash tabela p s x :
  length tabela = Z.to_nat HASH_SIZE ->
  x ∈ chaves (inserirNaHash tabela (Some p) (Some s)) <->
  x ∈ chaves tabela \/
  (x = strncpy p (MAX_PISTA - 1) /\ procurar (balde tabela (indice p)) p = None).
Proof.
  intros Hlen. pose proof (indice_lt p) as Hh. rewrite <- Hlen in Hh.
  unfold inserirNaHash.
  rewrite (chaves_balde tabela (indice p)) by assumption.
  destruct (sobrescrever (balde tabela (indice p)) p s) as [cadeia|] eqn:E.
  - assert (procurar (balde tabela (indice p)) p <> None) as Hn.
    { intros Hn. apply (sobrescrever_procurar _ _ s) in Hn. congruence. }
    apply sobrescrever_Some in E as [E1 E2].
    rewrite chaves_insert, E2 by assumption.
    tauto.
  - apply sobrescrever_procurar in E.
    rewrite chaves_insert by assumption.
    rewrite fmap_cons. cbn [h_pista].
    rewrite !elem_of_app, elem_of_cons. tauto.
Qed.

(** *** Lookup after insertion *)

Lemma balde_ok tabela h : tabela_ok tabela -> Forall entrada_ok (balde tabela h).
Proof.
  intros [_ Hok]. unfold balde. destruct (tabela !! h) as [c|] eqn:E; simpl.
  - eapply Forall_lookup_1; eauto.
  - constructor.
Qed.

Lemma inserirNaHash_ok tabela (pista suspeito : option string) :
  tabela_ok tabela -> tabela_ok (inserirNaHash tabela pista suspeito).
Proof.
  intros Hok. destruct pista as [p|], suspeito as [s|]; simpl; try assumption.
  pose proof (balde_ok tabela (indice p) Hok) as Hb. destruct Hok as [Hlen Hall].
  destruct (sobrescrever (balde tabela (indice p)) p s) as [cadeia|] eqn:E.
  - split; [now rewrite length_insert|].
    apply Forall_insert; [assumption|]. eapply sobrescrever_ok; eauto.
  - split; [now rewrite length_insert|].
    apply Forall_insert; [assumption|]. constructor; [|assumption].
    split; [apply strncpy_cabe_pista | apply strncpy_cabe_nome].
Qed.

(** A key that fits its buffer is found after [inserirNaHash], with the
    suspect as the buffer holds it. *)
Lemma encontrar_apos_inserir tabela p s :
  length tabela = Z.to_nat HASH_SIZE -> (String.length p < MAX_PISTA)%nat ->
  encontrarSuspeito (inserirNaHash tabela (Some p) (Some s)) (Some p)
  = Some (strncpy s (MAX_NOME - 1)).
Proof.
  intros Hlen Hp. pose proof (indice_lt p) as Hh. rewrite <- Hlen in Hh.
  unfold encontrarSuspeito, inserirNaHash.
  destruct (sobrescrever (balde tabela (indice p)) p s) as [cadeia|] eqn:E;
    rewrite balde_insert by assumption.
  - now apply sobrescrever_Some in E as [E _].
  - cbn [procurar h_pista h_suspeito].
    now rewrite strncpy_pista_curta, strcmp_refl.
Qed.

(** A text too long for the key buffer is not found, even right after its
    own insertion. *)
Lemma encontrar_longa tabela p :
  tabela_ok tabela -> (MAX_PISTA <= String.length p)%nat ->
  encontrarSuspeito tabela (Some p) = None.
Proof.
  intros Hok Hp. unfold encontrarSuspeito.
  apply procurar_longa; [now apply balde_ok | assumption].
Qed.

Lemma procurar_balde_inserir tabela p s :
  length tabela = Z.to_nat HASH_SIZE ->
  procurar (balde (inserirNaHash tabela (Some p) (Some s)) (indice p)) p = None ->
  procurar (balde tabela (indice p)) p = None.
Proof.
  intros Hlen. pose proof (indice_lt p) as Hh. rewrite <- Hlen in Hh.
  unfold inserirNaHash.
  destruct (sobrescrever (balde tabela (indice p)) p s) as [cadeia|] eqn:E;
    rewrite balde_insert by assumption.
  - apply sobrescrever_Some in E as [E _]. congruence.
  - intros _. now apply sobrescrever_procurar in E.
Qed.

Lemma length_inserirNaHash tabela (pista suspeito : option string) :
  length (inserirNaHash tabela pista suspeito) = length tabela.
Proof.
  destruct pista as [p|], suspeito as [s|]; simpl; try reflexivity.
  destruct (sobrescrever _ _ _); apply length_insert.
Qed.

(** A second insertion under the same key adds no key. *)
Lemma chaves_segunda_insercao tabela p a b x :
  length tabela = Z.to_nat HASH_SIZE ->
  x ∈ chaves (inserirNaHash (inserirNaHash tabela (Some p) (Some a)) (Some p) (Some b))
  <-> x ∈ chaves (inserirNaHash tabela (Some p) (Some a)).
Proof.
  intros Hlen.
  rewrite (chaves_inserirNaHash (inserirNaHash tabela (Some p) (Some a)))
    by now rewrite length_inserirNaHash.
  split; [|tauto]. intros [H|[-> H]]; [assumption|].
  apply procurar_balde_inserir in H; [|assumption].
  apply chaves_inserirNaHash; auto.
Qed.

(** The truncated key is among the keys after [inserirNaHash]. *)
Lemma chave_truncada tabela p s :
  tabela_ok tabela ->
  strncpy p (MAX_PISTA - 1) ∈ chaves (inserirNaHash tabela (Some p) (Some s)).
Proof.
  intros Hok. apply chaves_inserirNaHash; [apply Hok|].
  destruct (procurar (balde tabela (indice p)) p) as [s'|] eqn:E; [left|auto].
  apply procurar_Some in E as (e & He & <- & _).
  pose proof (balde_ok tabela (indice (h_pista e)) Hok) as Hb.
  rewrite Forall_forall in Hb. destruct (Hb e He) as [Hk _].
  rewrite strncpy_pista_curta by assumption.
  rewrite (chaves_balde tabela (indice (h_pista e))).
  - rewrite !elem_of_app. right. left. apply list_elem_of_fmap. eauto.
  - destruct Hok as [-> _]. apply indice_lt.
Qed.

End SuspectTable.

(** ** Claims on the suspect table and on the buffers *)

(** C4, as the code has it. On a table of [HASH_SIZE] buckets, a second
    [inserirNaHash] under the same clue adds no key; when the clue is at
    most 127 bytes long, [encontrarSuspeito] then returns the first 63 bytes
    of the second suspect, which is that suspect itself when it is at most
    63 bytes long. *)
Theorem C4_sobrescrita (tabela : Tabela) (pista A B : string) :
  length tabela = Z.to_nat HASH_SIZE ->
  let t1 := inserirNaHash tabela (Some pista) (Some A) in
  let t2 := inserirNaHash t1 (Some pista) (Some B) in
  num_chaves t2 = num_chaves t1 /\
  ((String.length pista < MAX_PISTA)%nat ->
   encontrarSuspeito t2 (Some pista) = Some (strncpy B (MAX_NOME - 1))) /\
  ((String.length pista < MAX_PISTA)%nat -> (String.length B < MAX_NOME)%nat ->
   encontrarSuspeito t2 (Some pista) = Some B).
Proof.
  intros Hlen t1 t2.
  assert ((String.length pista < MAX_PISTA)%nat ->
          encontrarSuspeito t2 (Some pista) = Some (strncpy B (MAX_NOME - 1))) as Hget.
  { intros Hp. apply encontrar_apos_inserir; [|assumption].
    unfold t1. now rewrite length_inserirNaHash. }
  split; [|split].
  - apply num_chaves_ext. intros x. now apply chaves_segunda_insercao.
  - exact Hget.
  - intros Hp HB. rewrite Hget by assumption. now rewrite strncpy_nome_curto.
Qed.

Lemma C4_sobrescrita_witness :
  let t1 := inserirNaHash tabela_main (Some "Pegada suja"%string) (Some "Carlos"%string) in
  let t2 := inserirNaHash t1 (Some "Pegada suja"%string) (Some "Dona Beatriz"%string) in
  num_chaves t2 = num_chaves t1 /\
  ((String.length "Pegada suja" < MAX_PISTA)%nat ->
   encontrarSuspeito t2 (Some "Pegada suja"%string)
   = Some (strncpy "Dona Beatriz" (MAX_NOME - 1))) /\
  ((String.length "Pegada suja" < MAX_PISTA)%nat ->
   (String.length "Dona Beatriz" < MAX_NOME)%nat ->
   encontrarSuspeito t2 (Some "Pegada suja"%string) = Some "Dona Beatriz"%string).
Proof.
  apply (C4_sobrescrita tabela_main "Pegada suja" "Carlos" "Dona Beatriz").
  vm_compute. reflexivity.
Defined.

(** C4 as stated fails on a clue of 128 bytes (it is not found after the two
    insertions) and on a suspect of 64 bytes (its first 63 bytes come back). *)
Lemma C4_counterexample :
  encontrarSuspeito
    (inserirNaHash (inserirNaHash tabela_vazia (Some pista_longa) (Some "A"%string))
                   (Some pista_longa) (Some "B"%string))
    (Some pista_longa) = None /\
  encontrarSuspeito
    (inserirNaHash (inserirNaHash tabela_vazia (Some "x"%string) (Some "A"%string))
                   (Some "x"%string) (Some (repetir MAX_NOME (ascii_of_nat 98))))
    (Some "x"%string) = Some (repetir (MAX_NOME - 1) (ascii_of_nat 98)) /\
  repetir (MAX_NOME - 1) (ascii_of_nat 98) <> repetir MAX_NOME (ascii_of_nat 98).
Proof.
  split; [vm_compute; reflexivity|]. split; [vm_compute; reflexivity|].
  intros H. apply (f_equal String.length) in H. vm_compute in H. discriminate.
Qed.

(** C10, as the code has it. What is stored is cut to the buffer: a room
    keeps the first 63 bytes of its name and the first 127 of its clue, the
    clue set gains the first 127 bytes of the clue inserted, the table has
    the first 127 bytes of the clue among its keys and gives back the first
    63 bytes of the suspect. The comparisons read the whole argument: a
    clue of 128 bytes or more is not found right after its own insertion.
    Two clues that agree on their first 127 bytes leave the same texts in
    the clue set and the same key in the table. *)
Theorem C10_truncamento (nome pista p q s : string) (casa : Casa)
  (raiz : PistaNode) (tabela : Tabela) :
  p <> EmptyString -> cabe raiz -> tabela_ok tabela ->
  snd (criarSala nome (Some pista) casa)
  = casa ++ [mkSala (strncpy nome (MAX_NOME - 1)) (strncpy pista (MAX_PISTA - 1))
                    None None] /\
  (forall x, x ∈ em_ordem (inserirPista raiz (Some p)) <->
             x ∈ em_ordem raiz \/ x = strncpy p (MAX_PISTA - 1)) /\
  strncpy p (MAX_PISTA - 1) ∈ chaves (inserirNaHash tabela (Some p) (Some s)) /\
  tabela_ok (inserirNaHash tabela (Some p) (Some s)) /\
  ((String.length p < MAX_PISTA)%nat ->
   encontrarSuspeito (inserirNaHash tabela (Some p) (Some s)) (Some p)
   = Some (strncpy s (MAX_NOME - 1))) /\
  ((MAX_PISTA <= String.length p)%nat ->
   encontrarSuspeito (inserirNaHash tabela (Some p) (Some s)) (Some p) = None) /\
  (strncpy q (MAX_PISTA - 1) = strncpy p (MAX_PISTA - 1) ->
   (forall x, x ∈ em_ordem (inserirPista raiz (Some q)) <->
              x ∈ em_ordem (inserirPista raiz (Some p))) /\
   strncpy p (MAX_PISTA - 1) ∈ chaves (inserirNaHash tabela (Some q) (Some s))).
Proof.
  intros Hp Hcabe Hok.
  assert (forall r, r <> EmptyString ->
            forall x, x ∈ em_ordem (inserirPista raiz (Some r)) <->
                      x ∈ em_ordem raiz \/ x = strncpy r (MAX_PISTA - 1)) as Hset.
  { intros r Hr x. split.
    - intros [H|[_ H]]%inserirPista_elem; auto.
    - intros [H| ->]; [now apply inserirPista_mantem|].
      now apply inserirPista_contem_trunc. }
  repeat split.
  - unfold criarSala. simpl. now destruct pista.
  - now apply Hset.
  - now apply Hset.
  - now apply chave_truncada.
  - now rewrite length_inserirNaHash; apply Hok.
  - now apply inserirNaHash_ok.
  - intros Hlen. apply encontrar_apos_inserir; [apply Hok | assumption].
  - intros Hlen. apply encontrar_longa; [|assumption]. now apply inserirNaHash_ok.
  - assert (q <> EmptyString) as Hq.
    { intros ->. destruct p; [congruence | discriminate]. }
    rewrite (Hset q Hq), (Hset p Hp), H. tauto.
  - assert (q <> EmptyString) as Hq.
    { intros ->. destruct p; [congruence | discriminate]. }
    rewrite (Hset q Hq), (Hset p Hp), H. tauto.
  - rewrite <- H. now apply chave_truncada.
Qed.

Lemma C10_truncamento_witness :
  let nome := repetir 70 (ascii_of_nat 110) in
  let p := pista_longa in
  let q := String.append pista_longa "b" in
  let s := repetir 70 (ascii_of_nat 115) in
  snd (criarSala nome (Some p) [])
  = [mkSala (repetir 63 (ascii_of_nat 110)) pista_cheia None None] /\
  encontrarSuspeito (inserirNaHash tabela_vazia (Some p) (Some s)) (Some p) = None /\
  encontrarSuspeito (inserirNaHash tabela_vazia (Some pista_cheia) (Some s))
                    (Some pista_cheia) = Some (repetir 63 (ascii_of_nat 115)) /\
  pista_cheia ∈ chaves (inserirNaHash tabela_vazia (Some q) (Some s)).
Proof.
  intros nome p q s.
  assert (pista_longa <> EmptyString) as Hp by (vm_compute; discriminate).
  assert (pista_cheia <> EmptyString) as Hc by (vm_compute; discriminate).
  assert (cabe PNull) as Hcabe by constructor.
  assert (tabela_ok tabela_vazia) as Hok
    by (split; [vm_compute; reflexivity | repeat constructor]).
  destruct (C10_truncamento nome p p q s [] PNull tabela_vazia Hp Hcabe Hok)
    as (Hsala & _ & _ & _ & _ & Hlonga & Hmesma).
  destruct (C10_truncamento nome p pista_cheia q s [] PNull tabela_vazia Hc Hcabe Hok)
    as (_ & _ & _ & _ & Hcurta & _ & _).
  split; [exact Hsala|]. split; [apply Hlonga; vm_compute; lia|].
  split; [apply Hcurta; vm_compute; lia|].
  apply Hmesma. vm_compute. reflexivity.
Defined.

(** C10 as stated fails on the clue of 127 bytes and the clue of 128 bytes
    that extends it. They agree on their first 127 bytes, yet inserting the
    second after the first leaves two nodes in the clue set where inserting
    the first again leaves one, and the table that finds the first does not
    find the second. *)
Lemma C10_counterexample :
  pista_cheia <> pista_longa /\
  strncpy pista_cheia (MAX_PISTA - 1) = strncpy pista_longa (MAX_PISTA - 1) /\
  em_ordem (inserirTodas [Some pista_cheia; Some pista_longa])
  = [pista_cheia; pista_cheia] /\
  em_ordem (inserirTodas [Some pista_cheia; Some pista_cheia]) = [pista_cheia] /\
  encontrarSuspeito (inserirNaHash tabela_vazia (Some pista_cheia) (Some "A"%string))
                    (Some pista_cheia) = Some "A"%string /\
  encontrarSuspeito (inserirNaHash tabela_vazia (Some pista_cheia) (Some "A"%string))
                    (Some pista_longa) = None.
Proof.
  split.
  { intros H. apply (f_equal String.length) in H. vm_compute in H. discriminate. }
  repeat split; vm_compute; reflexivity.
Qed.

(** ** The verdict *)

Section Verdict.

Implicit Types (raiz : PistaNode) (tabela : Tabela) (w : Mundo).

Lemma contar_contagem raiz tabela (acusado : string) (contador : Z) :
  contarPistasPorSuspeitoRec raiz tabela acusado contador
  = contador + Z.of_nat (contagem tabela acusado raiz).
Proof.
  unfold contagem. revert contador.
  induction raiz as [|p esq IHe dir IHd]; intros contador;
    cbn [contarPistasPorSuspeitoRec em_ordem].
  - simpl. lia.
  - rewrite IHd, IHe, filter_app, filter_cons, length_app.
    destruct (decide (encontrarSuspeito tabela (Some p) = Some acusado)) as [E|E].
    + rewrite E, strcmp_refl. simpl length. lia.
    + destruct (encontrarSuspeito tabela (Some p)) as [s|] eqn:Es; [|lia].
      destruct (strcmp s acusado) eqn:Ec; try lia.
      apply strcmp_eq in Ec. congruence.
Qed.

(** The count cannot leave the range of [int] on a tree of fewer than
    [2^31] nodes. *)
Lemma contagem_tamanho raiz tabela (acusado : string) :
  (contagem tabela acusado raiz <= tamanho raiz)%nat.
Proof.
  unfold contagem. etransitivity; [apply length_filter|].
  induction raiz as [|p esq IHe dir IHd]; simpl; [lia|].
  rewrite length_app. simpl. lia.
Qed.

Lemma stdout_listagem raiz w :
  stdout (match raiz with
          | PNull => imprimir MNenhumaPistaColetada (imprimir MCabecalhoPistas w)
          | PNo _ _ _ =>
              mkMundo (stdin (imprimir MCabecalhoPistas w))
                      (exibirPistas raiz (stdout (imprimir MCabecalhoPistas w)))
          end) = stdout w ++ listagem raiz.
Proof.
  unfold listagem. destruct raiz as [|p esq dir].
  - simpl. now rewrite <- app_assoc.
  - cbn [stdout]. rewrite exibirPistas_em_ordem. simpl stdout.
    now rewrite <- app_assoc.
Qed.

Lemma verificar_erro raiz tabela w :
  fst (fgets MAX_NOME (stdin w)) = None ->
  stdout (verificarSuspeitoFinal raiz tabela w)
  = stdout w ++ listagem raiz ++ [MPerguntaAcusado; MErroLeitura].
Proof.
  intros H. unfold verificarSuspeitoFinal.
  set (w1 := match raiz with PNull => _ | PNo _ _ _ => _ end).
  assert (stdin w1 = stdin w) as Hin by (unfold w1; now destruct raiz).
  assert (stdout w1 = stdout w ++ listagem raiz) as Hout by apply stdout_listagem.
  cbn [imprimir stdin stdout]. rewrite Hin.
  destruct (fgets MAX_NOME (stdin w)) as [[lido|] resto]; [discriminate|].
  cbn [imprimir stdin stdout]. rewrite Hout, <- !app_assoc. reflexivity.
Qed.

Lemma verificar_lido raiz tabela w (lido : string) :
  fst (fgets MAX_NOME (stdin w)) = Some lido ->
  let acusado := strip_newline lido in
  let cont := contarPistasPorSuspeitoRec raiz tabela acusado 0 in
  stdout (verificarSuspeitoFinal raiz tabela w)
  = stdout w ++ listagem raiz ++ MPerguntaAcusado ::
    (if Nat.eqb (strlen acusado) 0 then [MAcusacaoInvalida]
     else [MAcusado acusado; MContagem acusado cont;
           if Z.leb 2 cont then MCulpado acusado else MInsuficiente acusado]).
Proof.
  intros H. unfold verificarSuspeitoFinal.
  set (w1 := match raiz with PNull => _ | PNo _ _ _ => _ end).
  assert (stdin w1 = stdin w) as Hin by (unfold w1; now destruct raiz).
  assert (stdout w1 = stdout w ++ listagem raiz) as Hout by apply stdout_listagem.
  cbn [imprimir stdin stdout]. rewrite Hin.
  destruct (fgets MAX_NOME (stdin w)) as [[lido'|] resto]; [|discriminate].
  injection H as ->. cbv zeta.
  destruct (Nat.eqb (strlen (strip_newline lido)) 0).
  - cbn [imprimir stdin stdout]. rewrite Hout, <- !app_assoc. reflexivity.
  - destruct (Z.leb 2 _); cbn [imprimir stdin stdout];
      rewrite Hout, <- !app_assoc; reflexivity.
Qed.

End Verdict.

(** C1. When the line read for the accusation is not empty once its final
    newline is dropped, the count that [contarPistasPorSuspeitoRec]
    computes is the number of clues of the set whose lookup in the table
    gives exactly the accused name, and [verificarSuspeitoFinal] prints the
    guilty verdict when that count is at least 2, the other verdict
    otherwise. *)
Theorem C1_veredicto (raizPistas : PistaNode) (tabela : Tabela) (w : Mundo)
  (lido : string) :
  fst (fgets MAX_NOME (stdin w)) = Some lido ->
  strip_newline lido <> EmptyString ->
  let acusado := strip_newline lido in
  let count := Z.of_nat (contagem tabela acusado raizPistas) in
  contarPistasPorSuspeitoRec raizPistas tabela acusado 0 = count /\
  stdout (verificarSuspeitoFinal raizPistas tabela w)
  = stdout w ++ listagem raizPistas ++
    [MPerguntaAcusado; MAcusado acusado; MContagem acusado count;
     if decide (2 <= count) then MCulpado acusado else MInsuficiente acusado].
Proof.
  intros Hlido Hne acusado count.
  assert (contarPistasPorSuspeitoRec raizPistas tabela acusado 0 = count) as Hc.
  { rewrite contar_contagem. unfold count. lia. }
  split; [exact Hc|].
  rewrite (verificar_lido _ _ _ lido Hlido). cbv zeta. fold acusado. rewrite Hc.
  destruct (Nat.eqb (strlen acusado) 0) eqn:E.
  - apply Nat.eqb_eq in E. unfold strlen, acusado in E.
    destruct (strip_newline lido); [congruence | discriminate].
  - destruct (decide (2 <= count)) as [H|H].
    + apply Z.leb_le in H. now rewrite H.
    + apply Z.leb_nle in H. now rewrite H.
Qed.

Lemma C1_veredicto_witness :
  let raiz := inserirTodas [Some "Pegada suja"%string;
                            Some "Perfume feminino caro"%string;
                            Some "Copo com fragmento de esmalte"%string] in
  let w := mkMundo (String.append "Dona Beatriz" NL_s) [] in
  contarPistasPorSuspeitoRec raiz tabela_main "Dona Beatriz" 0 = 2 /\
  stdout (verificarSuspeitoFinal raiz tabela_main w)
  = [MCabecalhoPistas; MPista "Copo com fragmento de esmalte";
     MPista "Pegada suja"; MPista "Perfume feminino caro";
     MPerguntaAcusado; MAcusado "Dona Beatriz"; MContagem "Dona Beatriz" 2;
     MCulpado "Dona Beatriz"].
Proof.
  intros raiz w.
  assert (fst (fgets MAX_NOME (stdin w)) = Some (String.append "Dona Beatriz" NL_s))
    as H1 by (vm_compute; reflexivity).
  assert (strip_newline (String.append "Dona Beatriz" NL_s) <> EmptyString)
    as H2 by (vm_compute; discriminate).
  exact (C1_veredicto raiz tabela_main w _ H1 H2).
Defined.

(** C9. When the accusation cannot be read, or is empty once its final
    newline is dropped, [verificarSuspeitoFinal] prints the listing, the
    question and one message of rejection, and nothing else: no count, no
    verdict. [main] then goes on to its last message and returns 0. *)
Theorem C9_acusacao_invalida (entrada : string) (raizPistas : PistaNode)
  (w : Mundo) :
  (fst (fgets MAX_NOME (stdin w)) = None \/
   exists lido, fst (fgets MAX_NOME (stdin w)) = Some lido /\
                strip_newline lido = EmptyString) ->
  exists m, (m = MErroLeitura \/ m = MAcusacaoInvalida) /\
    (forall tabela : Tabela,
       stdout (verificarSuspeitoFinal raizPistas tabela w)
       = stdout w ++ listagem raizPistas ++ [MPerguntaAcusado; m]) /\
    (explorarSalas (snd mapa_main) (Some (fst mapa_main)) PNull
                   (imprimir MBanner (mkMundo entrada [])) = Some (raizPistas, w) ->
     main entrada
     = Some (0, stdout w ++ listagem raizPistas ++ [MPerguntaAcusado; m; MObrigado])).
Proof.
  intros H.
  assert (exists m, (m = MErroLeitura \/ m = MAcusacaoInvalida) /\
            forall tabela : Tabela,
              stdout (verificarSuspeitoFinal raizPistas tabela w)
              = stdout w ++ listagem raizPistas ++ [MPerguntaAcusado; m])
    as (m & Hm & Hout).
  { destruct H as [H|(lido & H & Hvazio)].
    - exists MErroLeitura. split; [auto|]. intros tabela. now apply verificar_erro.
    - exists MAcusacaoInvalida. split; [auto|]. intros tabela.
      rewrite (verificar_lido _ _ _ lido H). cbv zeta. now rewrite Hvazio. }
  exists m. split; [exact Hm|]. split; [exact Hout|].
  intros Hexp. unfold main.
  destruct mapa_main as [hall casa]. simpl in Hexp. rewrite Hexp.
  cbn [imprimir stdout]. rewrite Hout, <- !app_assoc. reflexivity.
Qed.

Lemma C9_acusacao_invalida_witness :
  main (String.append "s" (String.append NL_s NL_s))
  = Some (0, [MBanner; MEntrou "Hall de Entrada"; MPistaEncontrada "Pegada suja";
              MMenu; MEncerrada; MCabecalhoPistas; MPista "Pegada suja";
              MPerguntaAcusado; MAcusacaoInvalida; MObrigado]).
Proof.
  pose (entrada := String.append "s" (String.append NL_s NL_s)).
  pose (raiz := PNo "Pegada suja" PNull PNull).
  pose (w := mkMundo NL_s [MBanner; MEntrou "Hall de Entrada";
                           MPistaEncontrada "Pegada suja"; MMenu; MEncerrada]).
  assert (fst (fgets MAX_NOME (stdin w)) = None \/
          exists lido, fst (fgets MAX_NOME (stdin w)) = Some lido /\
                       strip_newline lido = EmptyString) as H.
  { right. exists NL_s. split; vm_compute; reflexivity. }
  destruct (C9_acusacao_invalida entrada raiz w H)
    as (m & [-> | ->] & Hout & Hmain).
  - specialize (Hout tabela_main). vm_compute in Hout. discriminate.
  - apply Hmain; vm_compute; reflexivity.
Defined.

(** ** Exploration *)

Section Exploration.

Implicit Types (sala : Sala) (casa : Casa) (raiz : PistaNode) (w : Mundo).

Lemma pular_brancos_length (s : string) :
  (String.length (pular_brancos s) <= String.length s)%nat.
Proof.
  induction s as [|c s IH]; simpl; [lia|].
  destruct (isspace c); simpl; lia.
Qed.

Lemma scanf_char_length (s resto : string) (opc : ascii) :
  scanf_char s = (Some opc, resto) -> (String.length resto < String.length s)%nat.
Proof.
  unfold scanf_char. pose proof (pular_brancos_length s) as H.
  destruct (pular_brancos s) as [|c r]; [discriminate|].
  intros [= _ <-]. simpl in H. lia.
Qed.

Lemma scanf_char_None (s resto : string) :
  scanf_char s = (None, resto) -> resto = EmptyString.
Proof.
  unfold scanf_char. destruct (pular_brancos s); [|discriminate]. now intros [= <-].
Qed.

Lemma limparEntradaRestante_length (s : string) :
  (String.length (limparEntradaRestante s) <= String.length s)%nat.
Proof.
  induction s as [|c s IH]; simpl; [lia|].
  destruct (Ascii.eqb c NL); simpl; lia.
Qed.

(** A turn that goes on has read at least one byte, has left the clue set
    as the entry made it, and is in the same room or in one of its
    children. *)
Lemma lerOpcao_continua sala (atual q : nat) raiz raiz' w w' :
  lerOpcao sala atual raiz w = Continua q raiz' w' ->
  raiz' = raiz /\
  (String.length (stdin w') < String.length (stdin w))%nat /\
  (q = atual \/ s_esquerda sala = Some q \/ s_direita sala = Some q).
Proof.
  unfold lerOpcao. cbn [imprimir stdin stdout].
  destruct (scanf_char (stdin w)) as [[opc|] resto] eqn:E; [|discriminate].
  apply scanf_char_length in E.
  pose proof (limparEntradaRestante_length resto) as Hl.
  destruct (Ascii.eqb opc e_min || Ascii.eqb opc e_mai).
  { destruct (s_esquerda sala) as [e|] eqn:Ee; intros [= <- <- <-];
      cbn [imprimir stdin]; repeat split; auto; lia. }
  destruct (Ascii.eqb opc d_min || Ascii.eqb opc d_mai).
  { destruct (s_direita sala) as [d|] eqn:Ed; intros [= <- <- <-];
      cbn [imprimir stdin]; repeat split; auto; lia. }
  destruct (Ascii.eqb opc s_min || Ascii.eqb opc s_mai); [discriminate|].
  intros [= <- <- <-]. cbn [imprimir stdin]. repeat split; auto; lia.
Qed.

Lemma corpo_continua sala (atual q : nat) raiz raiz' w w' :
  corpo sala atual raiz w = Continua q raiz' w' ->
  (String.length (stdin w') < String.length (stdin w))%nat /\
  (q = atual \/ s_esquerda sala = Some q \/ s_direita sala = Some q).
Proof.
  unfold corpo. pose proof (entrarSala_stdin sala raiz w) as Hin.
  destruct (entrarSala sala raiz w) as [raiz1 w1]. simpl in Hin.
  intros (_ & Hlen & Hq)%lerOpcao_continua. rewrite <- Hin. auto.
Qed.

(** The loop returns: in a house whose links all point to rooms, one turn
    more than the bytes of the input is enough. *)
Lemma laco_termina (passos : nat) casa (atual : nat) raiz w :
  casa_ok casa -> (atual < length casa)%nat ->
  (String.length (stdin w) < passos)%nat ->
  exists r, laco passos casa (Some atual) raiz w = Some r.
Proof.
  intros Hcasa. revert atual raiz w.
  induction passos as [|passos IH]; intros atual raiz w Hat Hlen; [lia|].
  cbn [laco].
  destruct (lookup_lt_is_Some_2 casa atual Hat) as [sala Hsala]. rewrite Hsala.
  destruct (corpo sala atual raiz w) as [q raiz' w'|raiz' w'] eqn:E; [|eauto].
  apply corpo_continua in E as [Hlt Hq].
  apply IH; [|lia].
  unfold casa_ok in Hcasa. rewrite Forall_forall in Hcasa.
  destruct (Hcasa sala) as (_ & He & Hd).
  { eapply list_elem_of_lookup_2; eauto. }
  destruct Hq as [->|[Hq|Hq]]; auto.
Qed.

Lemma explorarSalas_termina casa (atual : nat) raiz w :
  casa_ok casa -> (atual < length casa)%nat ->
  exists r, explorarSalas casa (Some atual) raiz w = Some r.
Proof. intros Hc Ha. apply laco_termina; auto. Qed.

Lemma mapa_main_ok : casa_ok (snd mapa_main) /\ (fst mapa_main < length (snd mapa_main))%nat.
Proof.
  split; [|vm_compute; lia].
  unfold casa_ok. vm_compute snd.
  repeat (apply Forall_cons; split;
          [split; [split; vm_compute; lia|];
           split; vm_compute; intros q Hq; try discriminate;
           injection Hq as <-; lia|]).
  constructor.
Qed.

(** [main] returns 0 on every input, after its last message. *)
Lemma main_termina (entrada : string) :
  exists out, main entrada = Some (0, out ++ [MObrigado]).
Proof.
  unfold main. destruct mapa_main_ok as [Hok Hhall].
  destruct mapa_main as [hall casa]. simpl in Hok, Hhall.
  destruct (explorarSalas_termina casa hall PNull
              (imprimir MBanner (mkMundo entrada [])) Hok Hhall) as [[raiz w] ->].
  eexists. reflexivity.
Qed.

(** A turn in which the read fails ends the loop. *)
Lemma lerOpcao_falha sala (atual : nat) raiz w :
  fst (scanf_char (stdin w)) = None ->
  lerOpcao sala atual raiz w
  = Encerra raiz (mkMundo EmptyString (stdout w ++ [MMenu; MEntradaInvalida])).
Proof.
  intros H. unfold lerOpcao. cbn [imprimir stdin stdout].
  destruct (scanf_char (stdin w)) as [[opc|] resto] eqn:E; [discriminate|].
  apply scanf_char_None in E. subst resto.
  unfold imprimir. cbn [stdin stdout]. now rewrite <- app_assoc.
Qed.

(** A move towards a side with no room keeps the room and the clue set. *)
Lemma lerOpcao_sem_caminho sala (atual : nat) raiz w (opc : ascii) (resto : string) :
  scanf_char (stdin w) = (Some opc, resto) ->
  (s_esquerda sala = None /\ (opc = e_min \/ opc = e_mai)) \/
  (s_direita sala = None /\ (opc = d_min \/ opc = d_mai)) ->
  lerOpcao sala atual raiz w
  = Continua atual raiz
      (mkMundo (limparEntradaRestante resto)
               (stdout w ++ [MMenu; sem_caminho opc])).
Proof.
  intros Hscan Hcmd. unfold lerOpcao. cbn [imprimir stdin stdout].
  rewrite Hscan. unfold sem_caminho, imprimir. cbn [stdin stdout].
  destruct Hcmd as [[Hnone [-> | ->]]|[Hnone [-> | ->]]];
    rewrite Hnone, <- ?app_assoc; reflexivity.
Qed.

Lemma explorarSalas_falha casa sala (atual : nat) raiz w :
  casa !! atual = Some sala ->
  fst (scanf_char (stdin w)) = None ->
  explorarSalas casa (Some atual) raiz w
  = Some (fst (entrarSala sala raiz w),
          mkMundo EmptyString
            (stdout (snd (entrarSala sala raiz w)) ++ [MMenu; MEntradaInvalida])).
Proof.
intros Hsala Hscan. unfold explorarSalas. cbn [laco]. rewrite Hsala. unfold corpo.
rewrite (surjective_pairing (entrarSala sala raiz w)).
rewrite lerOpcao_falha; [reflexivity|]. now rewrite entrarSala_stdin.
Qed.

(** The program on an input with no command to read. *)
Lemma main_falha (entrada : string) :
  fst (scanf_char entrada) = None ->
  main entrada
  = Some (0, [MBanner; MEntrou "Hall de Entrada"; MPistaEncontrada "Pegada suja";
              MMenu; MEntradaInvalida; MCabecalhoPistas; MPista "Pegada suja";
              MPerguntaAcusado; MErroLeitura; MObrigado]).
Proof.
intros Hscan. unfold main.
let m := eval vm_compute in mapa_main in change mapa_main with m.
cbv iota beta.
rewrite (explorarSalas_falha _
           (mkSala "Hall de Entrada" "Pegada suja" (Some 1%nat) (Some 2%nat)));
  [reflexivity | reflexivity | exact Hscan].
Qed.

(** More turns than needed change nothing. *)
Lemma laco_mais_passos (n m : nat) casa (atual : option nat) raiz w r :
  laco n casa atual raiz w = Some r -> (n <= m)%nat ->
  laco m casa atual raiz w = Some r.
Proof.
revert m atual raiz w.
induction n as [|n IH]; intros m atual raiz w H Hle;
  destruct atual as [p|]; try discriminate.
- destruct m; exact H.
- destruct m as [|m]; [lia|]. cbn [laco] in *.
  destruct (casa !! p) as [sala|]; [|discriminate].
  destruct (corpo sala p raiz w) as [q raiz' w'|raiz' w']; [|exact H].
  apply IH; [exact H | lia].
- destruct m; exact H.
Qed.

End Exploration.

(** ** Claims on the exploration *)

(** C7. In a room with no room to its left, at the prompt with the clue of
    the room already collected, the command [e] (or [E]) prints that there
    is no way and goes on with the loop in the same room and with the same
    clue set; the entry into the room that the next turn starts with leaves
    the clue set as it is, and the turn prompts again. The same holds of
    [d] (or [D]) in a room with no room to its right. *)
Theorem C7_sem_caminho (ps : list (option string)) (casa : Casa) (sala : Sala)
  (atual passos : nat) (w : Mundo) (opc : ascii) (resto : string) :
  casa !! atual = Some sala ->
  sala_ok sala ->
  scanf_char (stdin w) = (Some opc, resto) ->
  (s_esquerda sala = None /\ (opc = e_min \/ opc = e_mai)) \/
  (s_direita sala = None /\ (opc = d_min \/ opc = d_mai)) ->
  let raiz1 := fst (entrarSala sala (inserirTodas ps) w) in
  let w1 := snd (entrarSala sala (inserirTodas ps) w) in
  let w2 := mkMundo (limparEntradaRestante resto)
                    (stdout w1 ++ [MMenu; sem_caminho opc]) in
  lerOpcao sala atual raiz1 w1 = Continua atual raiz1 w2 /\
  fst (entrarSala sala raiz1 w2) = raiz1 /\
  laco (S passos) casa (Some atual) (inserirTodas ps) w
  = laco passos casa (Some atual) raiz1 w2.
Proof.
  intros Hsala [_ Hlen] Hscan Hcmd raiz1 w1 w2.
  assert (lerOpcao sala atual raiz1 w1 = Continua atual raiz1 w2) as Hler.
  { apply lerOpcao_sem_caminho; [|assumption].
    unfold w1. now rewrite entrarSala_stdin. }
  split; [exact Hler|]. split.
  - rewrite entrarSala_fst. unfold raiz1. rewrite entrarSala_fst.
    destruct (decide (s_pista sala = EmptyString)) as [E|E].
    { rewrite E. now rewrite !inserirPista_vazia. }
    rewrite <- inserirTodas_snoc.
    apply inserirPista_presente; [apply inserirTodas_ordenada|].
    rewrite inserirTodas_snoc. now apply inserirPista_contem.
  - cbn [laco]. rewrite Hsala. unfold corpo.
    fold raiz1 w1. rewrite (surjective_pairing (entrarSala _ _ _)).
    fold raiz1 w1. now rewrite Hler.
Qed.

Lemma C7_sem_caminho_witness :
  let casa := snd mapa_main in
  let sala := mkSala "Biblioteca" "Livro rasgado" None (Some 5%nat) in
  let w := mkMundo (String.append "e" NL_s) [] in
  let raiz1 := PNo "Pegada suja" (PNo "Livro rasgado" PNull PNull) PNull in
  let w2 := mkMundo EmptyString
              [MEntrou "Biblioteca"; MPistaEncontrada "Livro rasgado"; MMenu;
               MSemCaminhoEsquerda] in
  laco 2 casa (Some 2%nat) (inserirTodas [Some "Pegada suja"%string]) w
  = laco 1 casa (Some 2%nat) raiz1 w2 /\
  fst (entrarSala sala raiz1 w2) = raiz1.
Proof.
  intros casa sala w raiz1 w2.
  assert (casa !! 2%nat = Some sala) as H1 by (vm_compute; reflexivity).
  assert (sala_ok sala) as H2 by (split; vm_compute; lia).
  assert (scanf_char (stdin w) = (Some e_min, NL_s)) as H3 by (vm_compute; reflexivity).
  assert ((s_esquerda sala = None /\ (e_min = e_min \/ e_min = e_mai)) \/
          (s_direita sala = None /\ (e_min = d_min \/ e_min = d_mai))) as H4
    by (left; split; [reflexivity | left; reflexivity]).
  destruct (C7_sem_caminho [Some "Pegada suja"%string] casa sala 2 1 w e_min NL_s
              H1 H2 H3 H4) as (_ & Hentra & Hlaco).
  split; [exact Hlaco | exact Hentra].
Defined.

(** C8. When no command can be read, the turn prints that the input is
    invalid and ends the loop with the clue set as it was at the prompt;
    [explorarSalas] returns at once. The program started on such an input
    goes on to the verdict stage and returns 0. *)
Theorem C8_leitura_falha (casa : Casa) (sala : Sala) (atual : nat)
  (raizPistas : PistaNode) (w : Mundo) :
  casa !! atual = Some sala ->
  fst (scanf_char (stdin w)) = None ->
  let raiz1 := fst (entrarSala sala raizPistas w) in
  let w1 := snd (entrarSala sala raizPistas w) in
  let fim := mkMundo EmptyString (stdout w1 ++ [MMenu; MEntradaInvalida]) in
  lerOpcao sala atual raiz1 w1 = Encerra raiz1 fim /\
  explorarSalas casa (Some atual) raizPistas w = Some (raiz1, fim) /\
  main (stdin w)
  = Some (0, [MBanner; MEntrou "Hall de Entrada"; MPistaEncontrada "Pegada suja";
              MMenu; MEntradaInvalida; MCabecalhoPistas; MPista "Pegada suja";
              MPerguntaAcusado; MErroLeitura; MObrigado]).
Proof.
intros Hsala Hscan raiz1 w1 fim. split; [|split].
- apply lerOpcao_falha. unfold w1. now rewrite entrarSala_stdin.
- now apply explorarSalas_falha.
- now apply main_falha.
Qed.

Lemma C8_leitura_falha_witness :
  let w := mkMundo (String.append " " NL_s) [MBanner] in
  explorarSalas (snd mapa_main) (Some 0%nat) PNull w
  = Some (PNo "Pegada suja" PNull PNull,
          mkMundo EmptyString
            [MBanner; MEntrou "Hall de Entrada"; MPistaEncontrada "Pegada suja";
             MMenu; MEntradaInvalida]) /\
  main (String.append " " NL_s)
  = Some (0, [MBanner; MEntrou "Hall de Entrada"; MPistaEncontrada "Pegada suja";
              MMenu; MEntradaInvalida; MCabecalhoPistas; MPista "Pegada suja";
              MPerguntaAcusado; MErroLeitura; MObrigado]).
Proof.
intros w.
pose (sala := mkSala "Hall de Entrada" "Pegada suja" (Some 1%nat) (Some 2%nat)).
assert (snd mapa_main !! 0%nat = Some sala) as H1 by (vm_compute; reflexivity).
assert (fst (scanf_char (stdin w)) = None) as H2 by (vm_compute; reflexivity).
destruct (C8_leitura_falha (snd mapa_main) sala 0 PNull w H1 H2)
  as (_ & Hexp & Hmain).
split; [exact Hexp | exact Hmain].
Defined.

(** C5, as the code has it. On the input [e], [e], [s] and then the line
    [Dona Beatriz], the clue set holds the three clues of the hall, the
    sitting room and the kitchen; the listing shows them in the order of
    [strcmp], the clue of the kitchen first; the count for Dona Beatriz is
    2 and the verdict is guilty. *)
Theorem C5_cenario_A :
  exists raiz w,
    explorarSalas (snd mapa_main) (Some (fst mapa_main)) PNull
                  (imprimir MBanner (mkMundo entrada_A [])) = Some (raiz, w) /\
    (forall p, p ∈ em_ordem raiz <->
               p ∈ ["Pegada suja"; "Perfume feminino caro";
                    "Copo com fragmento de esmalte"]%string) /\
    exibirPistas raiz []
    = [MPista "Copo com fragmento de esmalte"; MPista "Pegada suja";
       MPista "Perfume feminino caro"] /\
    contarPistasPorSuspeitoRec raiz tabela_main "Dona Beatriz" 0 = 2 /\
    main entrada_A
    = Some (0, stdout w ++
               [MCabecalhoPistas; MPista "Copo com fragmento de esmalte";
                MPista "Pegada suja"; MPista "Perfume feminino caro";
                MPerguntaAcusado; MAcusado "Dona Beatriz";
                MContagem "Dona Beatriz" 2; MCulpado "Dona Beatriz"; MObrigado]).
Proof.
  eexists _, _. split; [vm_compute; reflexivity|].
  split.
  { intros p. cbn [em_ordem app].
    rewrite !elem_of_cons. rewrite !elem_of_nil. tauto. }
  repeat split; vm_compute; reflexivity.
Qed.

(** C5 as stated fails on the order of the listing: the clue of the kitchen
    comes first, not last. *)
Lemma C5_counterexample :
  exists raiz w,
    explorarSalas (snd mapa_main) (Some (fst mapa_main)) PNull
                  (imprimir MBanner (mkMundo entrada_A [])) = Some (raiz, w) /\
    exibirPistas raiz []
    <> [MPista "Pegada suja"; MPista "Perfume feminino caro";
        MPista "Copo com fragmento de esmalte"].
Proof.
  eexists _, _. split; [vm_compute; reflexivity|].
  vm_compute. discriminate.
Qed.

(** * Further properties of the code *)

(** ** The hash and the table *)

Section TableMore.

Implicit Types (tabela : Tabela) (cadeia : list HashEntry) (p q s x : string).

Lemma hash_passo_mult (h : Z) (c : ascii) :
  hash_passo h c = (h * 33 + Z.of_N (N_of_ascii c)) mod 2 ^ ULONG_BITS.
Proof.
  unfold hash_passo. rewrite Z.shiftl_mul_pow2 by lia.
  rewrite (Z.add_mod_idemp_l (h * 2 ^ 5) h) by (unfold ULONG_BITS; lia).
  rewrite Z.add_mod_idemp_l by (unfold ULONG_BITS; lia).
  f_equal. change (2 ^ 5) with 32. lia.
Qed.

Lemma hash_laco_polinomio s (h : Z) :
  hash_laco s (h mod 2 ^ ULONG_BITS) = polinomio s h mod 2 ^ ULONG_BITS.
Proof.
  assert (2 ^ ULONG_BITS <> 0) as HM by (unfold ULONG_BITS; lia).
  revert h; induction s as [|c s IH]; intros h; cbn [hash_laco polinomio];
    [reflexivity|].
  rewrite <- IH. f_equal. rewrite hash_passo_mult.
  rewrite (Z.add_mod (h mod 2 ^ ULONG_BITS * 33)) by assumption.
  rewrite Z.mul_mod_idemp_l by assumption.
  now rewrite <- Z.add_mod by assumption.
Qed.

Lemma elem_of_concat_balde (e : HashEntry) cadeia tabela :
  e ∈ cadeia -> cadeia ∈ tabela -> e ∈ concat tabela.
Proof.
  intros He Hc. induction Hc as [cadeia tabela|cadeia c' tabela _ IH]; simpl;
    apply elem_of_app; auto.
Qed.

(** What a lookup returns is stored under exactly that key. *)
Lemma encontrar_guardado tabela p s :
  encontrarSuspeito tabela (Some p) = Some s ->
  exists e, e ∈ concat tabela /\ h_pista e = p /\ h_suspeito e = s.
Proof.
  unfold encontrarSuspeito, balde.
  destruct (tabela !! indice p) as [cadeia|] eqn:E; simpl; [|discriminate].
  intros (e & He & Hk & Hs)%procurar_Some. exists e. split; [|auto].
  apply (elem_of_concat_balde e cadeia); [assumption|].
  eapply list_elem_of_lookup_2; eauto.
Qed.

Lemma encontrar_vazia (pista : option string) :
  encontrarSuspeito tabela_vazia pista = None.
Proof.
  destruct pista as [p|]; [|reflexivity].
  unfold encontrarSuspeito, balde, tabela_vazia.
  rewrite lookup_replicate_2 by apply indice_lt. reflexivity.
Qed.

Lemma sobrescrever_outra cadeia cadeia' p s q :
  sobrescrever cadeia p s = Some cadeia' -> q <> p ->
  procurar cadeia' q = procurar cadeia q.
Proof.
  revert cadeia'; induction cadeia as [|e prox IH]; intros cadeia' H Hq;
    simpl in H; [discriminate|].
  destruct (strcmp (h_pista e) p) eqn:E.
  - injection H as <-. apply strcmp_eq in E. simpl.
    destruct (strcmp (h_pista e) q) eqn:E'; [|reflexivity..].
    apply strcmp_eq in E'. congruence.
  - destruct (sobrescrever prox p s) as [prox'|]; [|discriminate].
    injection H as <-. simpl. rewrite (IH prox' eq_refl Hq). reflexivity.
  - destruct (sobrescrever prox p s) as [prox'|]; [|discriminate].
    injection H as <-. simpl. rewrite (IH prox' eq_refl Hq). reflexivity.
Qed.

(** An insertion under [p] leaves the lookup of every other key as it was,
    the first 127 bytes of [p] apart. *)
Lemma encontrar_outra tabela p s q :
  length tabela = Z.to_nat HASH_SIZE ->
  q <> p -> q <> strncpy p (MAX_PISTA - 1) ->
  encontrarSuspeito (inserirNaHash tabela (Some p) (Some s)) (Some q)
  = encontrarSuspeito tabela (Some q).
Proof.
  intros Hlen Hq Hq'. pose proof (indice_lt p) as Hh. rewrite <- Hlen in Hh.
  unfold encontrarSuspeito, inserirNaHash.
  destruct (decide (indice p = indice q)) as [E|E].
  - rewrite <- E.
    destruct (sobrescrever (balde tabela (indice p)) p s) as [cadeia|] eqn:Es;
      rewrite balde_insert by assumption.
    + eapply sobrescrever_outra; eauto.
    + cbn [procurar h_pista].
      destruct (strcmp (strncpy p (MAX_PISTA - 1)) q) eqn:E'; [|reflexivity..].
      apply strcmp_eq in E'. congruence.
  - destruct (sobrescrever (balde tabela (indice p)) p s) as [cadeia|];
      now rewrite balde_insert_ne.
Qed.

Lemma inserirVarias_snoc tabela (l : list (option string * option string))
  (a b : option string) :
  inserirVarias tabela (l ++ [(a, b)]) = inserirNaHash (inserirVarias tabela l) a b.
Proof. unfold inserirVarias. now rewrite foldl_app. Qed.

Lemma inserirVarias_ok tabela (l : list (option string * option string)) :
  tabela_ok tabela -> tabela_ok (inserirVarias tabela l).
Proof.
  intros Hok. induction l as [|[a b] l IH] using rev_ind; [assumption|].
  rewrite inserirVarias_snoc. now apply inserirNaHash_ok.
Qed.

Lemma ultimo_snoc q (l : list (option string * option string)) (a b : option string) :
  ultimo q (l ++ [(a, b)]) =
  match a, b with
  | Some p, Some s =>
      if decide (p = q) then Some (strncpy s (MAX_NOME - 1)) else ultimo q l
  | _, _ => ultimo q l
  end.
Proof.
  induction l as [|[[p'|] [s'|]] l IH]; simpl.
  - destruct a as [p|], b as [s|]; try reflexivity.
  - rewrite IH. destruct a as [p|], b as [s|]; try reflexivity.
    destruct (decide (p = q)); [reflexivity|].
    reflexivity.
  - exact IH.
  - exact IH.
  - exact IH.
Qed.

Lemma liberar_cadeia_app cadeia (livres : list HashEntry) :
  liberar_cadeia cadeia livres = livres ++ cadeia.
Proof.
  revert livres; induction cadeia as [|e prox IH]; intros livres; simpl.
  - now rewrite app_nil_r.
  - rewrite IH, <- app_assoc. reflexivity.
Qed.

Lemma liberar_laco_spec (n i : nat) tabela (livres : list HashEntry) :
  (i + n = length tabela)%nat ->
  liberar_laco n i tabela livres
  = (take i tabela ++ replicate n [], livres ++ concat (drop i tabela)).
Proof.
  revert i tabela livres; induction n as [|n IH]; intros i tabela livres Hlen; simpl.
  - rewrite app_nil_r, take_ge, drop_ge by lia. simpl. now rewrite app_nil_r.
  - rewrite IH by (rewrite length_insert; lia).
    rewrite liberar_cadeia_app.
    assert (i < length tabela)%nat as Hi by lia.
    f_equal.
    + rewrite take_S_r with (x := []) by (apply list_lookup_insert_eq; lia).
      rewrite take_insert_ge by lia.
      rewrite <- app_assoc. reflexivity.
    + rewrite drop_insert_lt by lia.
      rewrite (drop_S tabela (balde tabela i) i) by now apply balde_lookup.
      simpl. now rewrite <- app_assoc.
Qed.

End TableMore.

(** X1. [hash_string] is the polynomial of its comment, [h * 33 + c] at
    every byte from 5381, reduced modulo [2^64]; the bucket index taken from
    it is always below [HASH_SIZE], so [tabela[h]] is a bucket of a table of
    [HASH_SIZE] buckets. *)
Theorem X1_hash_string (s : string) (tabela : Tabela) :
  hash_string s = polinomio s 5381 mod 2 ^ ULONG_BITS /\
  (indice s < Z.to_nat HASH_SIZE)%nat /\
  (length tabela = Z.to_nat HASH_SIZE -> tabela !! indice s = Some (balde tabela (indice s))).
Proof.
  split; [|split].
  - unfold hash_string. now rewrite <- hash_laco_polinomio.
  - apply indice_lt.
  - intros Hlen. apply balde_lookup. rewrite Hlen. apply indice_lt.
Qed.

(** X2. A suspect that [encontrarSuspeito] returns is the one stored in an
    entry whose key is exactly the clue looked up; with a null clue, or in
    a table without such an entry, the result is null. *)
Theorem X2_encontrar_guardado (tabela : Tabela) (p : string) :
  encontrarSuspeito tabela None = None /\
  (forall s, encontrarSuspeito tabela (Some p) = Some s ->
             exists e, e ∈ concat tabela /\ h_pista e = p /\ h_suspeito e = s) /\
  ((forall e, e ∈ concat tabela -> h_pista e <> p) ->
   encontrarSuspeito tabela (Some p) = None).
Proof.
  split; [reflexivity|]. split; [apply encontrar_guardado|].
  intros H. destruct (encontrarSuspeito tabela (Some p)) as [s|] eqn:E; [|reflexivity].
  apply encontrar_guardado in E as (e & He & Hk & _). now apply H in He.
Qed.

Lemma X2_encontrar_guardado_witness :
  (exists e, e ∈ concat tabela_main /\ h_pista e = "Pegada suja"%string /\
             h_suspeito e = "Carlos"%string) /\
  encontrarSuspeito tabela_main (Some "Faca"%string) = None.
Proof.
  destruct (X2_encontrar_guardado tabela_main "Pegada suja") as (_ & H2 & _).
  destruct (X2_encontrar_guardado tabela_main "Faca") as (_ & _ & H3).
  split.
  - apply H2. vm_compute. reflexivity.
  - apply H3. intros e He. vm_compute in He.
    repeat (apply elem_of_cons in He as [->|He]; [vm_compute; discriminate|]).
    inversion He.
Defined.

(** X3. [inserirNaHash] under one clue leaves the lookup of every other clue
    as it was, provided the other clue is not the first 127 bytes of the
    inserted one. *)
Theorem X3_encontrar_outra (tabela : Tabela) (p s q : string) :
  length tabela = Z.to_nat HASH_SIZE ->
  q <> p -> q <> strncpy p (MAX_PISTA - 1) ->
  encontrarSuspeito (inserirNaHash tabela (Some p) (Some s)) (Some q)
  = encontrarSuspeito tabela (Some q).
Proof. apply encontrar_outra. Qed.

Lemma X3_encontrar_outra_witness :
  encontrarSuspeito
    (inserirNaHash tabela_main (Some "Pegada suja"%string) (Some "Dona Beatriz"%string))
    (Some "Livro rasgado"%string)
  = encontrarSuspeito tabela_main (Some "Livro rasgado"%string).
Proof.
  apply (X3_encontrar_outra tabela_main "Pegada suja" "Dona Beatriz" "Livro rasgado").
  - vm_compute. reflexivity.
  - discriminate.
  - vm_compute. discriminate.
Defined.

(** X4. After any sequence of [inserirNaHash] calls from the empty table
    whose clues are each at most 127 bytes long, [encontrarSuspeito] on a
    clue returns the suspect of the last call made with that clue, cut to
    63 bytes, and null when there was no such call. *)
Theorem X4_ultima_insercao (l : list (option string * option string)) (q : string) :
  (forall p b, (Some p, b) ∈ l -> (String.length p < MAX_PISTA)%nat) ->
  encontrarSuspeito (inserirVarias tabela_vazia l) (Some q) = ultimo q l.
Proof.
  induction l as [|[a b] l IH] using rev_ind; intros Hlen.
  - apply encontrar_vazia.
  - rewrite inserirVarias_snoc, ultimo_snoc.
    assert (encontrarSuspeito (inserirVarias tabela_vazia l) (Some q) = ultimo q l) as IH'.
    { apply IH. intros p' b' Hin. apply (Hlen p' b'), elem_of_app. auto. }
    pose proof (inserirVarias_ok tabela_vazia l tabela_vazia_ok) as [Hl _].
    destruct a as [p|], b as [s|]; try exact IH'.
    assert (String.length p < MAX_PISTA)%nat as Hp.
    { apply (Hlen p (Some s)), elem_of_app. right. apply list_elem_of_here. }
    destruct (decide (p = q)) as [->|Hne].
    + now apply encontrar_apos_inserir.
    + rewrite encontrar_outra; auto.
      rewrite strncpy_pista_curta by assumption. auto.
Qed.

Lemma X4_ultima_insercao_witness :
  let l := [(Some "a"%string, Some "X"%string); (Some "b"%string, Some "Y"%string);
            (None, Some "Z"%string); (Some "a"%string, Some "W"%string)] in
  encontrarSuspeito (inserirVarias tabela_vazia l) (Some "a"%string) = ultimo "a" l.
Proof.
  intros l. apply (X4_ultima_insercao l "a").
  intros p b Hp. unfold l in Hp.
  repeat (apply elem_of_cons in Hp as [Hp|Hp];
          [try discriminate; injection Hp as -> _; vm_compute; lia|]).
  inversion Hp.
Defined.

(** X5. Whatever sequence of [inserirNaHash] calls is made from the empty
    table, null arguments and over-long strings included, the table keeps
    its [HASH_SIZE] buckets, every stored clue fits its buffer of
    [MAX_PISTA] bytes and every stored suspect its buffer of [MAX_NOME]. *)
Theorem X5_tabela_ok (l : list (option string * option string)) :
  tabela_ok (inserirVarias tabela_vazia l).
Proof. apply inserirVarias_ok, tabela_vazia_ok. Qed.

(** X6. On a table of [HASH_SIZE] buckets, [liberarTabelaHash] releases
    every entry once, bucket after bucket and head first, and leaves every
    bucket null: the table is the empty table again, where no clue is
    found. *)
Theorem X6_liberarTabelaHash (tabela : Tabela) (p : option string) :
  length tabela = Z.to_nat HASH_SIZE ->
  liberarTabelaHash tabela = (tabela_vazia, concat tabela) /\
  encontrarSuspeito (fst (liberarTabelaHash tabela)) p = None.
Proof.
  intros Hlen.
  assert (liberarTabelaHash tabela = (tabela_vazia, concat tabela)) as E.
  { unfold liberarTabelaHash. rewrite liberar_laco_spec by (rewrite Hlen; lia).
    reflexivity. }
  split; [exact E|]. rewrite E. apply encontrar_vazia.
Qed.

Lemma X6_liberarTabelaHash_witness :
  liberarTabelaHash tabela_main = (tabela_vazia, concat tabela_main) /\
  encontrarSuspeito (fst (liberarTabelaHash tabela_main)) (Some "Pegada suja"%string)
  = None.
Proof.
  apply (X6_liberarTabelaHash tabela_main (Some "Pegada suja"%string)).
  vm_compute. reflexivity.
Defined.

(** A long clue whose bucket is the bucket of its first 127 bytes: its
    insertion changes what the lookup of those 127 bytes returns. The two
    conditions of [encontrar_outra] cannot be dropped. *)
Lemma encontrar_outra_limite :
  let longa := String.append pista_cheia "y" in
  let t := inserirNaHash tabela_vazia (Some pista_cheia) (Some "A"%string) in
  encontrarSuspeito t (Some pista_cheia) = Some "A"%string /\
  encontrarSuspeito (inserirNaHash t (Some longa) (Some "B"%string)) (Some pista_cheia)
  = Some "B"%string.
Proof. split; vm_compute; reflexivity. Qed.

(** ** The clue set *)

Section ClueSetMore.

Implicit Types (raiz esq dir : PistaNode) (p x : string).

Lemma str_le_antisym (a b : string) : str_le a b -> str_le b a -> a = b.
Proof.
  intros [->|Hab]%str_le_cases Hba; [reflexivity|].
  now apply str_lt_not_le in Hab.
Qed.

Lemma inserirTodas_origem (ps : list (option string)) x :
  x ∈ em_ordem (inserirTodas ps) ->
  exists p, Some p ∈ ps /\ p <> EmptyString /\ x = strncpy p (MAX_PISTA - 1).
Proof.
  induction ps as [|pista ps IH] using rev_ind.
  - intros H. inversion H.
  - rewrite inserirTodas_snoc. destruct pista as [p|].
    + intros [H|[Hp ->]]%inserirPista_elem.
      * destruct (IH H) as (p' & Hin & Hne & ->). exists p'.
        split; [apply elem_of_app; auto | auto].
      * exists p. split; [|auto]. apply elem_of_app. right. apply list_elem_of_here.
    + rewrite inserirPista_NULL. intros H.
      destruct (IH H) as (p' & Hin & Hne & ->). exists p'.
      split; [apply elem_of_app; auto | auto].
Qed.

Lemma strncpy_nao_vazia p (n : nat) :
  p <> EmptyString -> strncpy p (S n) <> EmptyString.
Proof. destruct p; [congruence | discriminate]. Qed.

(** The listing of a tree with strict bounds is determined by its texts. *)
Lemma estrita_unica raiz raiz' :
  estrita raiz -> estrita raiz' -> ordenada raiz -> ordenada raiz' ->
  (forall x, x ∈ em_ordem raiz <-> x ∈ em_ordem raiz') ->
  em_ordem raiz = em_ordem raiz'.
Proof.
  intros Hs Hs' Ho Ho' Hel.
  apply (StronglySorted_unique_strong str_le).
  - intros a b _ _. apply str_le_antisym.
  - now apply ordenada_crescente.
  - now apply ordenada_crescente.
  - apply NoDup_Permutation; auto using estrita_NoDup.
Qed.

(** An insertion leaves the listing as it was, or puts one text, the first
    127 bytes of its argument, somewhere into it. *)
Lemma inserirPista_lugar raiz p :
  p <> EmptyString ->
  em_ordem (inserirPista raiz (Some p)) = em_ordem raiz \/
  exists l1 l2, em_ordem raiz = l1 ++ l2 /\
    em_ordem (inserirPista raiz (Some p)) = l1 ++ strncpy p (MAX_PISTA - 1) :: l2.
Proof.
  intros Hp. induction raiz as [|rp esq IHe dir IHd].
  - right. exists [], []. rewrite inserirPista_folha by assumption. auto.
  - rewrite inserirPista_no by assumption. destruct (strcmp p rp); simpl; auto.
    + destruct IHe as [->|(l1 & l2 & E1 & ->)]; [auto|]. right.
      exists l1, (l2 ++ rp :: em_ordem dir). rewrite E1, <- !app_assoc. auto.
    + destruct IHd as [->|(l1 & l2 & E1 & ->)]; [auto|]. right.
      exists (em_ordem esq ++ rp :: l1), l2. rewrite E1, <- !app_assoc. auto.
Qed.

Lemma liberarPistas_app raiz (livres : list string) :
  liberarPistas raiz livres = livres ++ liberarPistas raiz [].
Proof.
  revert livres; induction raiz as [|p esq IHe dir IHd]; intros livres; simpl.
  - now rewrite app_nil_r.
  - rewrite (IHd (liberarPistas esq livres)), (IHd (liberarPistas esq [])), IHe.
    now rewrite <- !app_assoc.
Qed.

Lemma liberarPistas_perm raiz : liberarPistas raiz [] ≡ₚ em_ordem raiz.
Proof.
  induction raiz as [|p esq IHe dir IHd]; simpl; [reflexivity|].
  rewrite (liberarPistas_app dir), IHe, IHd.
  rewrite <- app_assoc. apply Permutation_app_head.
  rewrite Permutation_app_comm. reflexivity.
Qed.

End ClueSetMore.

(** X7. Every text in the listing is the first 127 bytes of a non-empty
    clue that was inserted: a null or empty clue is never stored, and
    nothing else appears. *)
Theorem X7_so_inseridas (ps : list (option string)) (x : string) :
  MPista x ∈ exibirPistas (inserirTodas ps) [] ->
  x <> EmptyString /\
  exists p, Some p ∈ ps /\ p <> EmptyString /\ x = strncpy p (MAX_PISTA - 1).
Proof.
  rewrite exibirPistas_em_ordem. simpl. intros H%MPista_elem.
  destruct (inserirTodas_origem ps x H) as (p & Hin & Hp & ->).
  split; [now apply strncpy_nao_vazia | eauto].
Qed.

Lemma X7_so_inseridas_witness :
  let ps := [Some "b"%string; None; Some EmptyString; Some "a"%string] in
  "a"%string <> EmptyString /\
  exists p, Some p ∈ ps /\ p <> EmptyString /\ "a"%string = strncpy p (MAX_PISTA - 1).
Proof.
  intros ps. apply (X7_so_inseridas ps "a").
  vm_compute. apply list_elem_of_here.
Defined.

(** X8. With clues of at most 127 bytes, the listing does not depend on the
    order of the insertions nor on repetitions: two sequences with the same
    non-empty clues give the same listing. *)
Theorem X8_ordem_de_insercao (ps qs : list (option string)) (out : list Msg) :
  (forall p, Some p ∈ ps -> (String.length p < MAX_PISTA)%nat) ->
  (forall p, p <> EmptyString -> (Some p ∈ ps <-> Some p ∈ qs)) ->
  exibirPistas (inserirTodas ps) out = exibirPistas (inserirTodas qs) out.
Proof.
  intros Hps Hsame.
  assert (forall p, Some p ∈ qs -> (String.length p < MAX_PISTA)%nat) as Hqs.
  { intros p Hp. destruct (decide (p = EmptyString)) as [->|Hne].
    - unfold MAX_PISTA. simpl. lia.
    - apply Hps, Hsame; assumption. }
  assert (forall l, (forall p, Some p ∈ l -> (String.length p < MAX_PISTA)%nat) ->
            forall x, x ∈ em_ordem (inserirTodas l) <-> x <> EmptyString /\ Some x ∈ l)
    as Hel.
  { intros l Hl x. split.
    - intros (p & Hin & Hp & ->)%inserirTodas_origem.
      rewrite strncpy_pista_curta by auto. auto.
    - intros [Hx Hin]. apply inserirTodas_contem; auto. }
  rewrite !exibirPistas_em_ordem. f_equal. f_equal.
  apply estrita_unica; auto using inserirTodas_estrita, inserirTodas_ordenada.
  intros x. rewrite (Hel ps Hps), (Hel qs Hqs).
  split; intros [Hx Hin]; (split; [assumption|]); now apply Hsame.
Qed.

Lemma X8_ordem_de_insercao_witness :
  exibirPistas (inserirTodas [Some "b"%string; Some "a"%string; Some "c"%string]) []
  = exibirPistas (inserirTodas [Some "c"%string; None; Some "a"%string;
                                Some "c"%string; Some "b"%string]) [].
Proof.
  apply X8_ordem_de_insercao.
  - intros p Hp.
    repeat (apply elem_of_cons in Hp as [Hp|Hp];
            [try discriminate; injection Hp as ->; vm_compute; lia|]).
    inversion Hp.
  - intros p _. rewrite !elem_of_cons, !elem_of_nil. intuition congruence.
Defined.

(** X9. [inserirPista] never removes nor reorders what the listing shows:
    the listing stays as it was, or gains one text, the first 127 bytes of
    the clue, at one place. *)
Theorem X9_inserir_lugar (raiz : PistaNode) (pista : option string) :
  em_ordem (inserirPista raiz pista) = em_ordem raiz \/
  exists p l1 l2, pista = Some p /\ p <> EmptyString /\
    em_ordem raiz = l1 ++ l2 /\
    em_ordem (inserirPista raiz pista) = l1 ++ strncpy p (MAX_PISTA - 1) :: l2.
Proof.
  destruct pista as [p|]; [|left; now rewrite inserirPista_NULL].
  destruct (decide (p = EmptyString)) as [->|Hp].
  { left. now rewrite inserirPista_vazia. }
  destruct (inserirPista_lugar raiz p Hp) as [H|(l1 & l2 & H1 & H2)]; [auto|].
  right. exists p, l1, l2. auto.
Qed.

(** X10. [liberarPistas] releases the nodes of the tree, each once, the two
    subtrees of a node before the node itself. *)
Theorem X10_liberarPistas (raiz : PistaNode) (livres : list string) :
  liberarPistas raiz livres = livres ++ liberarPistas raiz [] /\
  liberarPistas raiz [] ≡ₚ em_ordem raiz /\
  length (liberarPistas raiz []) = tamanho raiz /\
  (forall p esq dir, raiz = PNo p esq dir ->
     liberarPistas raiz [] = liberarPistas esq [] ++ liberarPistas dir [] ++ [p]).
Proof.
  split; [apply liberarPistas_app|]. split; [apply liberarPistas_perm|]. split.
  - rewrite liberarPistas_perm.
    induction raiz as [|p esq IHe dir IHd]; simpl; [reflexivity|].
    rewrite length_app. simpl. lia.
  - intros p esq dir ->. simpl.
    rewrite (liberarPistas_app dir), <- app_assoc. reflexivity.
Qed.

(** ** The exploration loop *)

Section ExplorationMore.

Implicit Types (sala : Sala) (casa : Casa) (raiz : PistaNode) (w : Mundo).

Lemma comando_false (opc : ascii) :
  comando opc = false ->
  Ascii.eqb opc e_min || Ascii.eqb opc e_mai = false /\
  Ascii.eqb opc d_min || Ascii.eqb opc d_mai = false /\
  Ascii.eqb opc s_min || Ascii.eqb opc s_mai = false.
Proof.
  unfold comando.
  destruct (Ascii.eqb opc e_min), (Ascii.eqb opc e_mai), (Ascii.eqb opc d_min),
    (Ascii.eqb opc d_mai), (Ascii.eqb opc s_min), (Ascii.eqb opc s_mai);
    simpl; intros H; try discriminate; auto.
Qed.

Lemma casa_ok_lookup casa :
  casa_ok casa <->
  forall i sala, casa !! i = Some sala ->
    sala_ok sala /\
    (forall q, s_esquerda sala = Some q -> (q < length casa)%nat) /\
    (forall q, s_direita sala = Some q -> (q < length casa)%nat).
Proof. unfold casa_ok. apply Forall_lookup. Qed.

(** The command read never touches the clue set. *)
Lemma lerOpcao_raiz sala (atual : nat) raiz w :
  raiz_de (lerOpcao sala atual raiz w) = raiz.
Proof.
  unfold lerOpcao.
  destruct (scanf_char (stdin (imprimir MMenu w))) as [[opc|] resto]; [|reflexivity].
  destruct (Ascii.eqb opc e_min || Ascii.eqb opc e_mai).
  { now destruct (s_esquerda sala). }
  destruct (Ascii.eqb opc d_min || Ascii.eqb opc d_mai).
  { now destruct (s_direita sala). }
  now destruct (Ascii.eqb opc s_min || Ascii.eqb opc s_mai).
Qed.

(** After a command, the rest of its line is gone from the input. *)
Lemma lerOpcao_stdin sala (atual : nat) raiz w (opc : ascii) (resto : string) :
  scanf_char (stdin w) = (Some opc, resto) ->
  stdin (mundo_de (lerOpcao sala atual raiz w)) = limparEntradaRestante resto.
Proof.
  intros H. unfold lerOpcao. cbn [imprimir stdin stdout]. rewrite H.
  destruct (Ascii.eqb opc e_min || Ascii.eqb opc e_mai).
  { now destruct (s_esquerda sala). }
  destruct (Ascii.eqb opc d_min || Ascii.eqb opc d_mai).
  { now destruct (s_direita sala). }
  now destruct (Ascii.eqb opc s_min || Ascii.eqb opc s_mai).
Qed.

Lemma corpo_raiz sala (atual : nat) raiz w :
  raiz_de (corpo sala atual raiz w) = inserirPista raiz (Some (s_pista sala)).
Proof.
  unfold corpo. rewrite <- (entrarSala_fst sala raiz w).
  destruct (entrarSala sala raiz w) as [raiz1 w1]. apply lerOpcao_raiz.
Qed.

Lemma corpo_lerOpcao sala (atual : nat) raiz w :
  corpo sala atual raiz w
  = lerOpcao sala atual (inserirPista raiz (Some (s_pista sala)))
             (snd (entrarSala sala raiz w)).
Proof.
  unfold corpo. rewrite <- (entrarSala_fst sala raiz w).
  now destruct (entrarSala sala raiz w).
Qed.


Lemma lerOpcao_invalida sala (atual : nat) raiz w (opc : ascii) (resto : string) :
  scanf_char (stdin w) = (Some opc, resto) ->
  comando opc = false ->
  lerOpcao sala atual raiz w
  = Continua atual raiz
      (mkMundo (limparEntradaRestante resto) (stdout w ++ [MMenu; MOpcaoInvalida])).
Proof.
  intros Hscan (He & Hd & Hs)%comando_false.
  unfold lerOpcao. cbn [imprimir stdin stdout].
  rewrite Hscan, He, Hd, Hs. unfold imprimir. cbn [stdin stdout].
  now rewrite <- app_assoc.
Qed.

Lemma lerOpcao_sair sala (atual : nat) raiz w (opc : ascii) (resto : string) :
  scanf_char (stdin w) = (Some opc, resto) ->
  opc = s_min \/ opc = s_mai ->
  lerOpcao sala atual raiz w
  = Encerra raiz
      (mkMundo (limparEntradaRestante resto) (stdout w ++ [MMenu; MEncerrada])).
Proof.
  intros Hscan Hs. unfold lerOpcao. cbn [imprimir stdin stdout].
  rewrite Hscan. unfold imprimir. cbn [stdin stdout].
  destruct Hs as [-> | ->]; rewrite <- ?app_assoc; reflexivity.
Qed.

Lemma lerOpcao_mover sala (atual q : nat) raiz w (opc : ascii) (resto : string) :
  scanf_char (stdin w) = (Some opc, resto) ->
  (s_esquerda sala = Some q /\ (opc = e_min \/ opc = e_mai)) \/
  (s_direita sala = Some q /\ (opc = d_min \/ opc = d_mai)) ->
  lerOpcao sala atual raiz w
  = Continua q raiz (mkMundo (limparEntradaRestante resto) (stdout w ++ [MMenu])).
Proof.
  intros Hscan Hcmd. unfold lerOpcao. cbn [imprimir stdin stdout].
  rewrite Hscan.
  destruct Hcmd as [[Hq [-> | ->]]|[Hq [-> | ->]]]; rewrite Hq; reflexivity.
Qed.

(** *** Lines of input *)

Lemma pular_brancos_app (brancos r : string) (opc : ascii) :
  todos isspace brancos = true -> isspace opc = false ->
  pular_brancos (String.append brancos (String opc r)) = String opc r.
Proof.
  intros Hb Hopc. induction brancos as [|c brancos IH].
  - change (pular_brancos (String opc r) = String opc r).
    cbn [pular_brancos]. now rewrite Hopc.
  - change (pular_brancos (String c (String.append brancos (String opc r)))
            = String opc r).
    cbn [pular_brancos todos] in *.
    apply andb_true_iff in Hb as [-> Hb]. auto.
Qed.

Lemma scanf_char_app (brancos r : string) (opc : ascii) :
  todos isspace brancos = true -> isspace opc = false ->
  scanf_char (String.append brancos (String opc r)) = (Some opc, r).
Proof. intros Hb Hopc. unfold scanf_char. now rewrite pular_brancos_app. Qed.

Lemma limparEntradaRestante_app (lixo resto : string) :
  todos nao_NL lixo = true ->
  limparEntradaRestante (String.append lixo (String NL resto)) = resto.
Proof.
  intros Hl. induction lixo as [|c lixo IH].
  - change (limparEntradaRestante (String NL resto) = resto).
    cbn [limparEntradaRestante]. now rewrite Ascii.eqb_refl.
  - change (limparEntradaRestante (String c (String.append lixo (String NL resto)))
            = resto).
    cbn [limparEntradaRestante todos] in *.
    apply andb_true_iff in Hl as [Hc Hl]. unfold nao_NL in Hc.
    apply negb_true_iff in Hc. rewrite Hc. auto.
Qed.

End ExplorationMore.

(** X11. In a house whose links all point to allocated rooms, the loop of
    [explorarSalas] ends on every input: one turn more than the bytes of
    the input is enough, and further turns change nothing. With a null
    room it returns at once, nothing read, printed or collected. *)
Theorem X11_explorarSalas_termina (casa : Casa) (atual : nat)
  (raizPistas : PistaNode) (w : Mundo) :
  casa_ok casa -> (atual < length casa)%nat ->
  explorarSalas casa None raizPistas w = Some (raizPistas, w) /\
  exists r, explorarSalas casa (Some atual) raizPistas w = Some r /\
    forall passos, (String.length (stdin w) < passos)%nat ->
                   laco passos casa (Some atual) raizPistas w = Some r.
Proof.
  intros Hok Hat. split; [reflexivity|].
  destruct (explorarSalas_termina casa atual raizPistas w Hok Hat) as [r Hr].
  exists r. split; [exact Hr|]. intros passos Hp.
  eapply laco_mais_passos; [exact Hr | lia].
Qed.

Lemma X11_explorarSalas_termina_witness :
  exists r, explorarSalas (snd mapa_main) (Some 0%nat) PNull (mkMundo entrada_A [])
            = Some r /\
    forall passos, (String.length entrada_A < passos)%nat ->
                   laco passos (snd mapa_main) (Some 0%nat) PNull (mkMundo entrada_A [])
                   = Some r.
Proof.
  assert (casa_ok (snd mapa_main)) as H1.
  { unfold casa_ok. vm_compute snd.
    repeat (apply Forall_cons; split;
            [split; [split; vm_compute; lia|];
             split; vm_compute; intros q Hq; try discriminate;
             injection Hq as <-; lia|]).
    constructor. }
  assert (0 < length (snd mapa_main))%nat as H2 by (vm_compute; lia).
  exact (proj2 (X11_explorarSalas_termina (snd mapa_main) 0 PNull
                  (mkMundo entrada_A []) H1 H2)).
Defined.

(** The rooms the loop enters, one after the other, and the clue set it
    ends with. *)
Lemma laco_caminho (passos : nat) (casa : Casa) (atual : nat)
  (raiz raiz' : PistaNode) (w w' : Mundo) :
  laco passos casa (Some atual) raiz w = Some (raiz', w') ->
  exists visitas,
    caminho casa atual visitas /\
    raiz' = foldl inserirPista raiz (pistas_de casa (atual :: visitas)).
Proof.
  revert atual raiz w. induction passos as [|passos IH]; intros atual raiz w;
    [discriminate|].
  cbn [laco]. destruct (casa !! atual) as [sala|] eqn:Es; [|discriminate].
  pose proof (corpo_raiz sala atual raiz w) as Hr.
  assert (pistas_de casa [atual] = [Some (s_pista sala)]) as Hp.
  { unfold pistas_de. simpl. now rewrite Es. }
  destruct (corpo sala atual raiz w) as [q raiz1 w1|raiz1 w1] eqn:Ec;
    simpl in Hr; subst raiz1.
  - apply corpo_continua in Ec as [_ Hq].
    intros (visitas & Hc & ->)%IH. exists (q :: visitas). split.
    + split; [|exact Hc]. exists sala. auto.
    + change (pistas_de casa (atual :: q :: visitas))
        with (pistas_de casa [atual] ++ pistas_de casa (q :: visitas)).
      now rewrite Hp.
  - intros [= <- <-]. exists []. split; [exact I|]. now rewrite Hp.
Qed.

(** X12. In a house whose links all point to allocated rooms,
    [explorarSalas] returns, and the clue set it returns is the one it was
    given after the insertion, in the order of the visits, of the clues of
    the rooms entered: the starting room first, then each time the room
    before again or one of its two children. Nothing collected before is
    lost. *)
Theorem X12_explorarSalas_coleta (casa : Casa) (atual : nat)
  (raizPistas : PistaNode) (w : Mundo) :
  casa_ok casa -> (atual < length casa)%nat ->
  exists visitas raiz' w',
    explorarSalas casa (Some atual) raizPistas w = Some (raiz', w') /\
    caminho casa atual visitas /\
    raiz' = foldl inserirPista raizPistas (pistas_de casa (atual :: visitas)) /\
    (forall x, x ∈ em_ordem raizPistas -> x ∈ em_ordem raiz').
Proof.
  intros Hok Hat.
  destruct (explorarSalas_termina casa atual raizPistas w Hok Hat) as [[raiz' w'] Hexp].
  destruct (laco_caminho _ _ _ _ _ _ _ Hexp) as (visitas & Hc & ->).
  exists visitas, (foldl inserirPista raizPistas (pistas_de casa (atual :: visitas))), w'.
  repeat split; auto.
  intros x Hx. now apply foldl_inserirPista_mantem.
Qed.

Lemma X12_explorarSalas_coleta_witness :
  exists visitas raiz' w',
    explorarSalas (snd mapa_main) (Some 0%nat) PNull (mkMundo entrada_A [])
    = Some (raiz', w') /\
    caminho (snd mapa_main) 0 visitas /\
    raiz' = foldl inserirPista PNull (pistas_de (snd mapa_main) (0%nat :: visitas)) /\
    (forall x, x ∈ em_ordem PNull -> x ∈ em_ordem raiz').
Proof.
  assert (casa_ok (snd mapa_main)) as H1.
  { unfold casa_ok. vm_compute snd.
    repeat (apply Forall_cons; split;
            [split; [split; vm_compute; lia|];
             split; vm_compute; intros q Hq; try discriminate;
             injection Hq as <-; lia|]).
    constructor. }
  assert (0 < length (snd mapa_main))%nat as H2 by (vm_compute; lia).
  exact (X12_explorarSalas_coleta (snd mapa_main) 0 PNull (mkMundo entrada_A []) H1 H2).
Defined.

(** X13. A byte that is none of [e], [E], [d], [D], [s], [S] is answered by
    the invalid-option message; the loop goes on in the same room, and the
    clue set is the one the entry into the room left. *)
Theorem X13_opcao_invalida (casa : Casa) (sala : Sala) (atual passos : nat)
  (raizPistas : PistaNode) (w : Mundo) (opc : ascii) (resto : string) :
  casa !! atual = Some sala ->
  scanf_char (stdin w) = (Some opc, resto) ->
  comando opc = false ->
  laco (S passos) casa (Some atual) raizPistas w
  = laco passos casa (Some atual)
      (inserirPista raizPistas (Some (s_pista sala)))
      (mkMundo (limparEntradaRestante resto)
         (stdout (snd (entrarSala sala raizPistas w)) ++ [MMenu; MOpcaoInvalida])).
Proof.
  intros Hsala Hscan Hcmd. cbn [laco]. rewrite Hsala, corpo_lerOpcao.
  rewrite (lerOpcao_invalida _ _ _ _ opc resto); auto.
  now rewrite entrarSala_stdin.
Qed.

Lemma X13_opcao_invalida_witness :
  let w := mkMundo (String.append "x" NL_s) [] in
  laco 2 (snd mapa_main) (Some 0%nat) PNull w
  = laco 1 (snd mapa_main) (Some 0%nat) (PNo "Pegada suja" PNull PNull)
      (mkMundo EmptyString
         [MEntrou "Hall de Entrada"; MPistaEncontrada "Pegada suja"; MMenu;
          MOpcaoInvalida]).
Proof.
  intros w.
  apply (X13_opcao_invalida (snd mapa_main)
           (mkSala "Hall de Entrada" "Pegada suja" (Some 1%nat) (Some 2%nat))
           0 1 PNull w (ascii_of_nat 120) NL_s).
  - vm_compute. reflexivity.
  - vm_compute. reflexivity.
  - vm_compute. reflexivity.
Defined.

(** X14. A command is the first byte of its line that is not white space,
    and the rest of the line is thrown away: after the turn the input is
    what follows the newline. When that byte is [s] or [S], [explorarSalas]
    returns there, with the clue of the room collected, so that the
    accusation is read from the next line. *)
Theorem X14_comando_por_linha (casa : Casa) (sala : Sala) (atual : nat)
  (raizPistas : PistaNode) (w : Mundo) (brancos lixo resto : string) (opc : ascii) :
  casa !! atual = Some sala ->
  stdin w = String.append brancos (String opc (String.append lixo (String NL resto))) ->
  todos isspace brancos = true -> isspace opc = false -> todos nao_NL lixo = true ->
  stdin (mundo_de (corpo sala atual raizPistas w)) = resto /\
  (opc = s_min \/ opc = s_mai ->
   explorarSalas casa (Some atual) raizPistas w
   = Some (inserirPista raizPistas (Some (s_pista sala)),
           mkMundo resto
             (stdout (snd (entrarSala sala raizPistas w)) ++ [MMenu; MEncerrada]))).
Proof.
  intros Hsala Hin Hb Hopc Hl.
  assert (scanf_char (stdin (snd (entrarSala sala raizPistas w)))
          = (Some opc, String.append lixo (String NL resto))) as Hscan.
  { rewrite entrarSala_stdin, Hin. now apply scanf_char_app. }
  split.
  - rewrite corpo_lerOpcao, (lerOpcao_stdin _ _ _ _ _ _ Hscan).
    now apply limparEntradaRestante_app.
  - intros Hs. unfold explorarSalas. cbn [laco]. rewrite Hsala, corpo_lerOpcao.
    rewrite (lerOpcao_sair _ _ _ _ _ _ Hscan Hs).
    now rewrite limparEntradaRestante_app.
Qed.

Lemma X14_comando_por_linha_witness :
  let w := mkMundo (String.append "  sair ja" (String.append NL_s "Carlos")) [] in
  explorarSalas (snd mapa_main) (Some 0%nat) PNull w
  = Some (PNo "Pegada suja" PNull PNull,
          mkMundo "Carlos"
            [MEntrou "Hall de Entrada"; MPistaEncontrada "Pegada suja"; MMenu;
             MEncerrada]).
Proof.
  intros w.
  apply (X14_comando_por_linha (snd mapa_main)
           (mkSala "Hall de Entrada" "Pegada suja" (Some 1%nat) (Some 2%nat))
           0 PNull w "  " "air ja" "Carlos" s_min);
    try (vm_compute; reflexivity).
  left. reflexivity.
Defined.

(** The loop on a script of moves followed by [s]. *)
Lemma laco_rota (casa : Casa) (lados : list bool) (resto : string) :
  casa_ok casa ->
  forall (passos atual : nat) (raiz : PistaNode) (out : list Msg),
    (atual < length casa)%nat -> (length lados < passos)%nat ->
    exists out',
      laco passos casa (Some atual) raiz
           (mkMundo (teclas lados (String s_min (String NL resto))) out)
      = Some (foldl inserirPista raiz (rota casa lados atual), mkMundo resto out').
Proof.
  intros Hok. induction lados as [|lado lados IH];
    intros passos atual raiz out Hat Hp;
    destruct passos as [|passos]; try (simpl in Hp; lia);
    destruct (lookup_lt_is_Some_2 casa atual Hat) as [sala Hsala];
    cbn [laco rota teclas]; rewrite Hsala, corpo_lerOpcao.
  - rewrite (lerOpcao_sair _ _ _ _ s_min (String NL resto)).
    + eexists. cbn [foldl limparEntradaRestante]. rewrite Ascii.eqb_refl. reflexivity.
    + rewrite entrarSala_stdin. reflexivity.
    + auto.
  - assert (scanf_char (stdin (snd (entrarSala sala raiz
              (mkMundo (String (if lado then e_min else d_min)
                          (String NL (teclas lados (String s_min (String NL resto)))))
                       out))))
            = (Some (if lado then e_min else d_min),
               String NL (teclas lados (String s_min (String NL resto))))) as Hscan.
    { rewrite entrarSala_stdin. now destruct lado. }
    destruct (proj1 (casa_ok_lookup casa) Hok atual sala Hsala) as (_ & He & Hd).
    cbn [foldl].
    destruct (if lado then s_esquerda sala else s_direita sala) as [q|] eqn:Eq.
    + rewrite (lerOpcao_mover _ _ q _ _ _ _ Hscan)
        by (destruct lado; [left | right]; auto).
      cbn [limparEntradaRestante]. rewrite Ascii.eqb_refl.
      apply IH; [|simpl in Hp; lia]. destruct lado; auto.
    + rewrite (lerOpcao_sem_caminho _ _ _ _ _ _ Hscan)
        by (destruct lado; [left | right]; auto).
      cbn [limparEntradaRestante]. rewrite Ascii.eqb_refl.
      apply IH; [assumption | simpl in Hp; lia].
Qed.

(** X15. On a script of moves, one [e] or [d] per line, followed by a line
    [s], [explorarSalas] returns with the clue set it was given after the
    insertion, in order, of the clues of the rooms entered along the
    route; a move towards a side with no room enters the same room again.
    The input left is what follows the line [s]. *)
Theorem X15_roteiro (casa : Casa) (lados : list bool) (resto : string)
  (atual : nat) (raizPistas : PistaNode) (out : list Msg) :
  casa_ok casa -> (atual < length casa)%nat ->
  exists out',
    explorarSalas casa (Some atual) raizPistas
      (mkMundo (teclas lados (String s_min (String NL resto))) out)
    = Some (foldl inserirPista raizPistas (rota casa lados atual), mkMundo resto out').
Proof.
  intros Hok Hat. unfold explorarSalas. apply laco_rota; [assumption..|].
  cbn [stdin]. clear. induction lados as [|lado lados IH]; simpl; lia.
Qed.

Lemma X15_roteiro_witness :
  exists out',
    explorarSalas (snd mapa_main) (Some 0%nat) PNull
      (mkMundo (teclas [false; true; false] (String s_min (String NL "Carlos"))) [])
    = Some (inserirTodas [Some "Pegada suja"%string; Some "Livro rasgado"%string;
                          Some "Livro rasgado"%string; Some "Luva encharcada"%string],
            mkMundo "Carlos" out').
Proof.
  assert (casa_ok (snd mapa_main)) as H1.
  { unfold casa_ok. vm_compute snd.
    repeat (apply Forall_cons; split;
            [split; [split; vm_compute; lia|];
             split; vm_compute; intros q Hq; try discriminate;
             injection Hq as <-; lia|]).
    constructor. }
  assert (0 < length (snd mapa_main))%nat as H2 by (vm_compute; lia).
  exact (X15_roteiro (snd mapa_main) [false; true; false] "Carlos" 0 PNull [] H1 H2).
Defined.

(** ** One entry per key *)

Section TableInv.

Implicit Types (tabela : Tabela) (cadeia : list HashEntry) (p q s x : string).

Lemma procurar_None cadeia p :
  procurar cadeia p = None <-> p ∉ h_pista <$> cadeia.
Proof.
  induction cadeia as [|e prox IH]; simpl.
  - split; [intros _ H; inversion H | reflexivity].
  - rewrite not_elem_of_cons, <- IH.
    destruct (strcmp (h_pista e) p) eqn:E.
    + apply strcmp_eq in E. split; [discriminate | intros [H _]; congruence].
    + split; [intros H; split; [intros ->; now rewrite strcmp_refl in E | exact H]
             | tauto].
    + split; [intros H; split; [intros ->; now rewrite strcmp_refl in E | exact H]
             | tauto].
Qed.

Lemma tabela_vazia_inv : tabela_inv tabela_vazia.
Proof.
  split; [apply length_replicate|]. intros i cadeia [-> _]%lookup_replicate.
  split; constructor.
Qed.

Lemma inserirNaHash_inv tabela (pista suspeito : option string) :
  (forall p, pista = Some p -> (String.length p < MAX_PISTA)%nat) ->
  tabela_inv tabela -> tabela_inv (inserirNaHash tabela pista suspeito).
Proof.
  intros Hp [Hlen Hinv]. destruct pista as [p|], suspeito as [s|];
    try (split; assumption).
  specialize (Hp p eq_refl).
  pose proof (indice_lt p) as Hh. rewrite <- Hlen in Hh.
  destruct (Hinv _ _ (balde_lookup tabela (indice p) Hh)) as [Hnd Hbk].
  assert (forall cadeia' : list HashEntry,
            NoDup (h_pista <$> cadeia') ->
            Forall (fun k => indice k = indice p) (h_pista <$> cadeia') ->
            tabela_inv (<[indice p := cadeia']> tabela)) as Hput.
  { intros cadeia' Hnd' Hbk'. split; [now rewrite length_insert|].
    intros i cadeia Hi. destruct (decide (indice p = i)) as [<-|Hne].
    - rewrite list_lookup_insert_eq in Hi by assumption. now injection Hi as <-.
    - rewrite list_lookup_insert_ne in Hi by assumption. eauto. }
  unfold inserirNaHash.
  destruct (sobrescrever (balde tabela (indice p)) p s) as [cadeia'|] eqn:E.
  - apply sobrescrever_Some in E as [_ E]. apply Hput; now rewrite E.
  - apply sobrescrever_procurar, procurar_None in E.
    apply Hput; rewrite fmap_cons; cbn [h_pista];
      rewrite strncpy_pista_curta by assumption.
    + now apply NoDup_cons.
    + now constructor.
Qed.

Lemma NoDup_baldes (f : string -> nat) (L : list (list string)) (base : nat) :
  (forall i c, L !! i = Some c -> NoDup c /\ Forall (fun k => f k = (base + i)%nat) c) ->
  NoDup (concat L).
Proof.
  revert base. induction L as [|c L IH]; intros base H; simpl; [constructor|].
  destruct (H O c eq_refl) as [Hnd Hbk]. apply NoDup_app. split; [exact Hnd|]. split.
  - intros k Hk Hin. rewrite Forall_forall in Hbk. specialize (Hbk k Hk).
    apply list_elem_of_In, in_concat in Hin as (c' & Hc' & Hk').
    apply list_elem_of_In, list_elem_of_lookup in Hc' as [j Hj].
    destruct (H (S j) c' Hj) as [_ Hbk']. rewrite Forall_forall in Hbk'.
    apply list_elem_of_In in Hk'. specialize (Hbk' k Hk'). lia.
  - apply (IH (S base)). intros i c' Hi. destruct (H (S i) c' Hi) as [? Hb].
    split; [assumption|]. eapply Forall_impl; [exact Hb|]. simpl. intros; lia.
Qed.

Lemma tabela_inv_NoDup tabela : tabela_inv tabela -> NoDup (chaves tabela).
Proof.
  intros [_ Hinv]. unfold chaves.
  assert (h_pista <$> concat tabela
          = concat ((fun c : list HashEntry => h_pista <$> c) <$> tabela)) as ->.
  { clear. induction tabela as [|c t IH]; simpl; [reflexivity|].
    rewrite fmap_app. now f_equal. }
  apply (NoDup_baldes indice _ O). intros i c Hi.
  rewrite list_lookup_fmap in Hi. destruct (tabela !! i) as [c'|] eqn:E; [|discriminate].
  injection Hi as <-. apply (Hinv i c' E).
Qed.

Lemma inserirVarias_inv (l : list (option string * option string)) :
  (forall p b, (Some p, b) ∈ l -> (String.length p < MAX_PISTA)%nat) ->
  tabela_inv (inserirVarias tabela_vazia l).
Proof.
  induction l as [|[a b] l IH] using rev_ind; intros Hl; [apply tabela_vazia_inv|].
  rewrite inserirVarias_snoc. apply inserirNaHash_inv.
  - intros p ->. apply (Hl p b), elem_of_app. right. apply list_elem_of_here.
  - apply IH. intros p b' Hin. apply (Hl p b'), elem_of_app. auto.
Qed.

End TableInv.

(** X25. After any sequence of [inserirNaHash] calls from the empty table
    whose clues are each at most 127 bytes long, no two entries of the
    table have the same clue, so there are as many entries as distinct
    keys, and every entry is in the bucket of the hash of its clue. *)
Theorem X25_uma_entrada_por_chave (l : list (option string * option string)) :
  (forall p b, (Some p, b) ∈ l -> (String.length p < MAX_PISTA)%nat) ->
  let tabela := inserirVarias tabela_vazia l in
  NoDup (chaves tabela) /\
  length (concat tabela) = num_chaves tabela /\
  (forall i cadeia e, tabela !! i = Some cadeia -> e ∈ cadeia ->
                      indice (h_pista e) = i).
Proof.
  intros Hl tabela. pose proof (inserirVarias_inv l Hl) as Hinv. fold tabela in Hinv.
  pose proof (tabela_inv_NoDup tabela Hinv) as Hnd.
  split; [exact Hnd|]. split.
  - unfold num_chaves.
    transitivity (length (chaves tabela)); [unfold chaves; now rewrite length_fmap|].
    apply Permutation_length, NoDup_Permutation;
      [exact Hnd | apply NoDup_remove_dups |].
    intros x. now rewrite elem_of_remove_dups.
  - intros i cadeia e Hi He. destruct Hinv as [_ Hinv].
    destruct (Hinv i cadeia Hi) as [_ Hbk]. rewrite Forall_forall in Hbk.
    apply Hbk, list_elem_of_fmap. eauto.
Qed.

Lemma X25_uma_entrada_por_chave_witness :
  let l := [(Some "a"%string, Some "X"%string); (Some "b"%string, Some "Y"%string);
            (Some "a"%string, None); (Some "a"%string, Some "W"%string)] in
  NoDup (chaves (inserirVarias tabela_vazia l)) /\
  length (concat (inserirVarias tabela_vazia l)) = num_chaves (inserirVarias tabela_vazia l).
Proof.
  intros l.
  destruct (X25_uma_entrada_por_chave l) as (H1 & H2 & _).
  - intros p b Hp. unfold l in Hp.
    repeat (apply elem_of_cons in Hp as [Hp|Hp];
            [try discriminate; injection Hp as -> _; vm_compute; lia|]).
    inversion Hp.
  - split; [exact H1 | exact H2].
Defined.


(** ** The verdict *)

Section VerdictMore.

Implicit Types (raiz : PistaNode) (tabela : Tabela) (w : Mundo).

Lemma contagem_desconhecido raiz tabela (acusado : string) :
  (forall e, e ∈ concat tabela -> h_suspeito e <> acusado) ->
  contagem tabela acusado raiz = O.
Proof.
  intros H. unfold contagem.
  induction (em_ordem raiz) as [|p l IH]; [reflexivity|].
  rewrite filter_cons.
  destruct (decide (encontrarSuspeito tabela (Some p) = Some acusado)) as [E|E];
    [|exact IH].
  apply encontrar_guardado in E as (e & He & _ & Hs). now apply H in He.
Qed.

End VerdictMore.

Lemma int_wrap_id (z : Z) : INT_MIN <= z <= INT_MAX -> int_wrap z = z.
Proof.
  unfold int_wrap, INT_MIN, INT_MAX, INT_BITS. intros H.
  rewrite Z.mod_small; lia.
Qed.

(** While the counter stays in the range of [int], the wrap-around changes
    nothing. *)
Lemma contar_int_igual (raiz : PistaNode) (tabela : Tabela) (acusado : string)
  (contador : Z) :
  INT_MIN <= contador -> contador + Z.of_nat (tamanho raiz) <= INT_MAX ->
  contarPistasPorSuspeitoRec_int raiz tabela acusado contador
  = contarPistasPorSuspeitoRec raiz tabela acusado contador.
Proof.
  revert contador. induction raiz as [|p esq IHe dir IHd]; intros contador Hmin Hmax;
    cbn [contarPistasPorSuspeitoRec_int contarPistasPorSuspeitoRec tamanho] in *;
    [reflexivity|].
  rewrite IHe by lia.
  pose proof (contar_contagem esq tabela acusado contador) as Hc.
  pose proof (contagem_tamanho esq tabela acusado) as Ht.
  set (c1 := contarPistasPorSuspeitoRec esq tabela acusado contador) in *.
  destruct (encontrarSuspeito tabela (Some p)) as [s|]; [|apply IHd; lia].
  destruct (strcmp s acusado); try (apply IHd; lia).
  rewrite int_wrap_id by lia. apply IHd; lia.
Qed.

(** Out of that range the two differ: from [INT_MAX], two matching clues
    take the [int] to [INT_MIN + 1]. *)
Lemma contador_transborda :
  let raiz := inserirTodas [Some "Perfume feminino caro"%string;
                            Some "Copo com fragmento de esmalte"%string] in
  contarPistasPorSuspeitoRec_int raiz tabela_main "Dona Beatriz" INT_MAX = INT_MIN + 1 /\
  contarPistasPorSuspeitoRec raiz tabela_main "Dona Beatriz" INT_MAX = INT_MAX + 2.
Proof. split; vm_compute; reflexivity. Qed.

(** X17. While the counter cannot leave the range of [int] (it starts at
    [INT_MIN] or above, and with one more for every node of the tree it is
    still at most [INT_MAX]), the count with the wrap-around of [int] is
    the counter given plus the number of matching clues, which lies between
    0 and the number of nodes of the tree; the result is in the range of
    [int]. *)
Theorem X17_contador (raiz : PistaNode) (tabela : Tabela) (acusado : string)
  (contador : Z) :
  INT_MIN <= contador -> contador + Z.of_nat (tamanho raiz) <= INT_MAX ->
  contarPistasPorSuspeitoRec_int raiz tabela acusado contador
  = contador + Z.of_nat (contagem tabela acusado raiz) /\
  (contagem tabela acusado raiz <= tamanho raiz)%nat /\
  INT_MIN <= contarPistasPorSuspeitoRec_int raiz tabela acusado contador <= INT_MAX.
Proof.
  intros Hmin Hmax.
  pose proof (contagem_tamanho raiz tabela acusado) as Ht.
  rewrite (contar_int_igual raiz tabela acusado contador) by lia.
  rewrite contar_contagem. repeat split; lia.
Qed.

Lemma X17_contador_witness :
  let raiz := inserirTodas [Some "Perfume feminino caro"%string;
                            Some "Copo com fragmento de esmalte"%string;
                            Some "Pegada suja"%string] in
  contarPistasPorSuspeitoRec_int raiz tabela_main "Dona Beatriz" 7
  = 7 + Z.of_nat (contagem tabela_main "Dona Beatriz" raiz) /\
  (contagem tabela_main "Dona Beatriz" raiz <= tamanho raiz)%nat /\
  INT_MIN <= contarPistasPorSuspeitoRec_int raiz tabela_main "Dona Beatriz" 7 <= INT_MAX.
Proof.
  intros raiz.
  apply (X17_contador raiz tabela_main "Dona Beatriz" 7).
  - vm_compute. discriminate.
  - vm_compute. discriminate.
Defined.

(** X18. With fewer than two clues collected the verdict is never guilty,
    whoever is accused and whatever the table holds. *)
Theorem X18_poucas_pistas (raizPistas : PistaNode) (tabela : Tabela) (w : Mundo)
  (lido : string) :
  fst (fgets MAX_NOME (stdin w)) = Some lido ->
  strip_newline lido <> EmptyString ->
  (tamanho raizPistas < 2)%nat ->
  let acusado := strip_newline lido in
  let cont := contarPistasPorSuspeitoRec raizPistas tabela acusado 0 in
  stdout (verificarSuspeitoFinal raizPistas tabela w)
  = stdout w ++ listagem raizPistas ++
    [MPerguntaAcusado; MAcusado acusado; MContagem acusado cont;
     MInsuficiente acusado].
Proof.
  intros Hlido Hne Htam acusado cont.
  rewrite (verificar_lido _ _ _ lido Hlido). cbv zeta. fold acusado. fold cont.
  assert (cont < 2) as Hc.
  { unfold cont. rewrite contar_contagem.
    pose proof (contagem_tamanho raizPistas tabela acusado). lia. }
  apply Z.leb_gt in Hc. rewrite Hc.
  destruct (Nat.eqb (strlen acusado) 0) eqn:E; [|reflexivity].
  apply Nat.eqb_eq in E. unfold strlen, acusado in E.
  destruct (strip_newline lido); [congruence | discriminate].
Qed.

Lemma X18_poucas_pistas_witness :
  let w := mkMundo (String.append "Carlos" NL_s) [] in
  stdout (verificarSuspeitoFinal (PNo "Pegada suja" PNull PNull) tabela_main w)
  = [MCabecalhoPistas; MPista "Pegada suja"; MPerguntaAcusado; MAcusado "Carlos";
     MContagem "Carlos" 1; MInsuficiente "Carlos"].
Proof.
  intros w.
  assert (fst (fgets MAX_NOME (stdin w)) = Some (String.append "Carlos" NL_s))
    as H1 by (vm_compute; reflexivity).
  assert (strip_newline (String.append "Carlos" NL_s) <> EmptyString)
    as H2 by (vm_compute; discriminate).
  assert (tamanho (PNo "Pegada suja" PNull PNull) < 2)%nat as H3 by (vm_compute; lia).
  exact (X18_poucas_pistas (PNo "Pegada suja" PNull PNull) tabela_main w _ H1 H2 H3).
Defined.

(** X19. When no entry of the table names the accused as its suspect, the
    counter is left as it was, so the count is 0 and the verdict is not
    guilty, whatever was collected. *)
Theorem X19_suspeito_desconhecido (raizPistas : PistaNode) (tabela : Tabela)
  (w : Mundo) (lido : string) (contador : Z) :
  fst (fgets MAX_NOME (stdin w)) = Some lido ->
  strip_newline lido <> EmptyString ->
  (forall e, e ∈ concat tabela -> h_suspeito e <> strip_newline lido) ->
  let acusado := strip_newline lido in
  contarPistasPorSuspeitoRec raizPistas tabela acusado contador = contador /\
  stdout (verificarSuspeitoFinal raizPistas tabela w)
  = stdout w ++ listagem raizPistas ++
    [MPerguntaAcusado; MAcusado acusado; MContagem acusado 0; MInsuficiente acusado].
Proof.
  intros Hlido Hne Hnone acusado.
  assert (forall c, contarPistasPorSuspeitoRec raizPistas tabela acusado c = c) as Hc.
  { intros c. rewrite contar_contagem, contagem_desconhecido by assumption. lia. }
  split; [apply Hc|].
  rewrite (verificar_lido _ _ _ lido Hlido). cbv zeta. fold acusado. rewrite Hc.
  destruct (Nat.eqb (strlen acusado) 0) eqn:E; [|reflexivity].
  apply Nat.eqb_eq in E. unfold strlen, acusado in E.
  destruct (strip_newline lido); [congruence | discriminate].
Qed.

Lemma X19_suspeito_desconhecido_witness :
  let raiz := inserirTodas [Some "Pegada suja"%string; Some "Livro rasgado"%string] in
  let w := mkMundo (String.append "carlos" NL_s) [] in
  contarPistasPorSuspeitoRec raiz tabela_main "carlos" 7 = 7 /\
  stdout (verificarSuspeitoFinal raiz tabela_main w)
  = [MCabecalhoPistas; MPista "Livro rasgado"; MPista "Pegada suja";
     MPerguntaAcusado; MAcusado "carlos"; MContagem "carlos" 0;
     MInsuficiente "carlos"].
Proof.
  intros raiz w.
  assert (fst (fgets MAX_NOME (stdin w)) = Some (String.append "carlos" NL_s))
    as H1 by (vm_compute; reflexivity).
  assert (strip_newline (String.append "carlos" NL_s) <> EmptyString)
    as H2 by (vm_compute; discriminate).
  assert (forall e, e ∈ concat tabela_main ->
            h_suspeito e <> strip_newline (String.append "carlos" NL_s)) as H3.
  { intros e He. vm_compute in He.
    repeat (apply elem_of_cons in He as [->|He]; [vm_compute; discriminate|]).
    inversion He. }
  exact (X19_suspeito_desconhecido raiz tabela_main w _ 7 H1 H2 H3).
Defined.

(** ** Lines read *)

Section LinesMore.

Lemma append_vazia (t : string) : String.append EmptyString t = t.
Proof. reflexivity. Qed.

Lemma append_cons (c : ascii) (s t : string) :
  String.append (String c s) t = String c (String.append s t).
Proof. reflexivity. Qed.

Lemma nao_NL_nem_NUL_true (c : ascii) :
  nao_NL_nem_NUL c = true -> Ascii.eqb c NL = false /\ Ascii.eqb c Ascii.zero = false.
Proof.
  unfold nao_NL_nem_NUL. intros [H1 H2]%andb_true_iff.
  now apply negb_true_iff in H1, H2.
Qed.

Lemma strip_newline_app (s : string) : strip_newline (String.append s NL_s) = s.
Proof.
  induction s as [|c s IH].
  - change (strip_newline (String NL EmptyString) = EmptyString).
    cbn [strip_newline]. now rewrite Ascii.eqb_refl.
  - rewrite append_cons. cbn [strip_newline].
    destruct s as [|c' s]; [rewrite append_vazia in *|rewrite append_cons in *];
      unfold NL_s in *; now rewrite IH.
Qed.

Lemma strip_newline_sem_NL (s : string) :
  todos nao_NL s = true -> strip_newline s = s.
Proof.
  induction s as [|c s IH]; [reflexivity|]. cbn [todos strip_newline].
  intros [Hc Hs]%andb_true_iff. unfold nao_NL in Hc. apply negb_true_iff in Hc.
  destruct s as [|c' s]; [now rewrite Hc | now rewrite IH].
Qed.

Lemma strip_newline_length (s : string) :
  (String.length (strip_newline s) <= String.length s)%nat.
Proof.
  induction s as [|c s IH]; [reflexivity|]. cbn [strip_newline].
  destruct s as [|c' s].
  - destruct (Ascii.eqb c NL); simpl; lia.
  - cbn [String.length] in *. lia.
Qed.

Lemma todos_impl (P Q : ascii -> bool) (s : string) :
  (forall c, P c = true -> Q c = true) -> todos P s = true -> todos Q s = true.
Proof.
  intros H. induction s as [|c s IH]; [reflexivity|]. cbn [todos].
  intros [Hc Hs]%andb_true_iff. rewrite (H c Hc). auto.
Qed.

Lemma todos_nao_NL (s : string) :
  todos nao_NL_nem_NUL s = true -> todos nao_NL s = true.
Proof.
  apply todos_impl. intros c [H _]%nao_NL_nem_NUL_true. unfold nao_NL. now rewrite H.
Qed.

Lemma c_str_linha (s t : string) :
  todos nao_NL_nem_NUL s = true ->
  c_str (String.append s t) = String.append s (c_str t).
Proof.
  induction s as [|c s IH]; [reflexivity|]. cbn [todos].
  intros [[_ Hc]%nao_NL_nem_NUL_true Hs]%andb_true_iff.
  rewrite !append_cons. cbn [c_str]. now rewrite Hc, IH.
Qed.

Lemma fgets_bytes_linha (n : nat) (linha resto : string) :
  todos nao_NL linha = true -> (String.length linha < n)%nat ->
  fgets_bytes n (String.append linha (String NL resto))
  = (String.append linha NL_s, resto).
Proof.
  revert n. induction linha as [|c linha IH]; intros n Hl Hn.
  - destruct n; [simpl in Hn; lia|].
    change (fgets_bytes (S n) (String NL resto) = (NL_s, resto)).
    cbn [fgets_bytes]. now rewrite Ascii.eqb_refl.
  - destruct n; [simpl in Hn; lia|]. cbn [todos String.length] in *.
    apply andb_true_iff in Hl as [Hc Hl]. unfold nao_NL in Hc.
    apply negb_true_iff in Hc.
    rewrite !append_cons. cbn [fgets_bytes]. rewrite Hc, IH by (auto; lia).
    reflexivity.
Qed.

Lemma fgets_bytes_cheio (linha resto : string) :
  todos nao_NL linha = true ->
  fgets_bytes (String.length linha) (String.append linha resto) = (linha, resto).
Proof.
  induction linha as [|c linha IH]; [reflexivity|]. cbn [todos String.length].
  intros [Hc Hl]%andb_true_iff. unfold nao_NL in Hc. apply negb_true_iff in Hc.
  rewrite append_cons. cbn [fgets_bytes]. now rewrite Hc, IH.
Qed.

Lemma fgets_bytes_fim (n : nat) (linha : string) :
  todos nao_NL linha = true -> (String.length linha <= n)%nat ->
  fgets_bytes n linha = (linha, EmptyString).
Proof.
  revert n. induction linha as [|c linha IH]; intros n Hl Hn.
  - now destruct n.
  - destruct n; [simpl in Hn; lia|]. cbn [todos String.length] in *.
    apply andb_true_iff in Hl as [Hc Hl]. unfold nao_NL in Hc.
    apply negb_true_iff in Hc.
    cbn [fgets_bytes]. rewrite Hc, IH by (auto; lia). reflexivity.
Qed.

Lemma c_str_sem_NUL (s : string) :
  todos nao_NL_nem_NUL s = true -> c_str s = s.
Proof.
  induction s as [|c s IH]; [reflexivity|]. cbn [todos c_str].
  intros [[_ Hc]%nao_NL_nem_NUL_true Hs]%andb_true_iff. now rewrite Hc, IH.
Qed.

End LinesMore.

(** X20. A line of at most 62 bytes, none of them a newline or a NUL, is
    read whole by [fgets] into the buffer of [MAX_NOME] bytes, newline
    included, and [strip_newline] gives the line back; what follows the
    newline stays in the input. The same line at the very end of the
    input, with no newline after it, is read whole as well. *)
Theorem X20_fgets_linha (linha resto : string) :
  todos nao_NL_nem_NUL linha = true ->
  (String.length linha + 1 < MAX_NOME)%nat ->
  fgets MAX_NOME (String.append linha (String NL resto))
  = (Some (String.append linha NL_s), resto) /\
  strip_newline (String.append linha NL_s) = linha /\
  (linha <> EmptyString ->
   fgets MAX_NOME linha = (Some linha, EmptyString) /\ strip_newline linha = linha).
Proof.
  intros Hl Hlen. pose proof (todos_nao_NL linha Hl) as Hl'.
  split; [|split].
  - unfold fgets.
    destruct (String.append linha (String NL resto)) as [|c r] eqn:E.
    { destruct linha; discriminate. }
    rewrite <- E, fgets_bytes_linha by (auto; unfold MAX_NOME in *; lia).
    rewrite c_str_linha by assumption. reflexivity.
  - apply strip_newline_app.
  - intros Hne. split; [|now apply strip_newline_sem_NL].
    unfold fgets. destruct linha as [|c r] eqn:E; [congruence|].
    rewrite <- E in *.
    rewrite fgets_bytes_fim by (auto; unfold MAX_NOME in *; lia).
    now rewrite c_str_sem_NUL.
Qed.

Lemma X20_fgets_linha_witness :
  fgets MAX_NOME (String.append "Dona Beatriz" (String NL "resto"))
  = (Some (String.append "Dona Beatriz" NL_s), "resto"%string) /\
  strip_newline (String.append "Dona Beatriz" NL_s) = "Dona Beatriz"%string /\
  fgets MAX_NOME "Dona Beatriz" = (Some "Dona Beatriz"%string, EmptyString).
Proof.
  destruct (X20_fgets_linha "Dona Beatriz" "resto") as (H1 & H2 & H3).
  - vm_compute. reflexivity.
  - vm_compute. lia.
  - split; [exact H1|]. split; [exact H2|]. apply H3. discriminate.
Defined.

(** X21. Of a line of 63 bytes or more, [fgets] takes the first 63 bytes and
    leaves the rest unread, newline included: the accused name is cut to
    what the buffer of [MAX_NOME] bytes holds. *)
Theorem X21_fgets_corta (linha resto : string) :
  todos nao_NL_nem_NUL linha = true ->
  String.length linha = (MAX_NOME - 1)%nat ->
  fgets MAX_NOME (String.append linha resto) = (Some linha, resto) /\
  strip_newline linha = linha.
Proof.
  intros Hl Hlen. pose proof (todos_nao_NL linha Hl) as Hl'.
  split; [|now apply strip_newline_sem_NL].
  unfold fgets. destruct (String.append linha resto) as [|c r] eqn:E.
  { destruct linha; [discriminate Hlen | discriminate E]. }
  rewrite <- E, <- Hlen, fgets_bytes_cheio by assumption.
  now rewrite c_str_sem_NUL.
Qed.

Lemma X21_fgets_corta_witness :
  fgets MAX_NOME (String.append (repetir 63 (ascii_of_nat 98)) (String.append "bb" NL_s))
  = (Some (repetir 63 (ascii_of_nat 98)), String.append "bb" NL_s).
Proof.
  apply (X21_fgets_corta (repetir 63 (ascii_of_nat 98)) (String.append "bb" NL_s)).
  - vm_compute. reflexivity.
  - vm_compute. reflexivity.
Defined.

(** X22. [strip_newline] drops one final newline and nothing else: a
    string followed by a newline gives the string, a string without
    newlines is left as it is, and the result is never longer. *)
Theorem X22_strip_newline (s : string) :
  strip_newline (String.append s NL_s) = s /\
  (todos nao_NL s = true -> strip_newline s = s) /\
  (String.length (strip_newline s) <= String.length s)%nat.
Proof.
  split; [apply strip_newline_app|]. split; [apply strip_newline_sem_NL|].
  apply strip_newline_length.
Qed.

Lemma X22_strip_newline_witness :
  strip_newline "Carlos" = "Carlos"%string /\
  strip_newline (String.append (String.append "Carlos" NL_s) NL_s)
  = String.append "Carlos" NL_s.
Proof.
  destruct (X22_strip_newline "Carlos") as (_ & H2 & _).
  destruct (X22_strip_newline (String.append "Carlos" NL_s)) as (H1 & _ & _).
  split; [apply H2; vm_compute; reflexivity | exact H1].
Defined.

(** ** The rooms *)

Section RoomsMore.

Implicit Types (casa : Casa) (sala : Sala).

Lemma criarSala_ok (nome : string) (pista : option string) casa :
  casa_ok casa -> casa_ok (snd (criarSala nome pista casa)).
Proof.
  intros Hok. unfold criarSala. cbn [snd]. unfold casa_ok in *.
  apply Forall_app. split.
  - eapply Forall_impl; [exact Hok|]. intros s (Hs & He & Hd).
    rewrite length_app. simpl. split; [assumption|].
    split; intros q Hq; [specialize (He q Hq) | specialize (Hd q Hq)]; lia.
  - constructor; [|constructor]. split; [|split; intros q; discriminate].
    split; cbn [s_nome s_pista]; [apply strncpy_cabe_nome|].
    destruct pista as [[|c p]|]; try (unfold MAX_PISTA; simpl; lia).
    apply strncpy_cabe_pista.
Qed.

Lemma ligar_ok (lado : bool) (s q : nat) casa :
  casa_ok casa -> (q < length casa)%nat ->
  casa_ok (if lado then ligar_esquerda s q casa else ligar_direita s q casa).
Proof.
  intros Hok Hq. apply casa_ok_lookup. intros i sala Hi.
  assert (length (if lado then ligar_esquerda s q casa else ligar_direita s q casa)
          = length casa) as Hlen.
  { destruct lado; unfold ligar_esquerda, ligar_direita; apply length_alter. }
  rewrite Hlen. rewrite casa_ok_lookup in Hok.
  destruct (decide (s = i)) as [->|Hne].
  - destruct lado; unfold ligar_esquerda, ligar_direita in Hi;
      rewrite list_lookup_alter_eq in Hi;
      destruct (casa !! i) as [r|] eqn:Er; try discriminate;
      injection Hi as <-; destruct (Hok i r Er) as (Hs & He & Hd);
      (split; [exact Hs|]); cbn [s_esquerda s_direita]; split; auto;
      intros q' [= <-]; assumption.
  - destruct lado; unfold ligar_esquerda, ligar_direita in Hi;
      rewrite list_lookup_alter_ne in Hi by assumption; eauto.
Qed.

End RoomsMore.

(** X23. [criarSala] returns a pointer to a new room that fits its buffers
    and has no links, and leaves the rooms already allocated as they were;
    linking a room to an allocated room changes that one link only. A house
    built with these operations has no dangling link. *)
Theorem X23_construir_casa (nome : string) (pista : option string) (casa : Casa)
  (s q i : nat) :
  casa_ok casa -> (q < length casa)%nat ->
  (fst (criarSala nome pista casa) = length casa /\
   casa_ok (snd (criarSala nome pista casa)) /\
   (forall j sala, casa !! j = Some sala ->
                   snd (criarSala nome pista casa) !! j = Some sala) /\
   exists sala, snd (criarSala nome pista casa) !! length casa = Some sala /\
     sala_ok sala /\ s_nome sala = strncpy nome (MAX_NOME - 1) /\
     s_esquerda sala = None /\ s_direita sala = None) /\
  (casa_ok (ligar_esquerda s q casa) /\ casa_ok (ligar_direita s q casa) /\
   (i <> s -> ligar_esquerda s q casa !! i = casa !! i /\
              ligar_direita s q casa !! i = casa !! i) /\
   (forall sala, casa !! s = Some sala ->
      ligar_esquerda s q casa !! s
      = Some (mkSala (s_nome sala) (s_pista sala) (Some q) (s_direita sala)) /\
      ligar_direita s q casa !! s
      = Some (mkSala (s_nome sala) (s_pista sala) (s_esquerda sala) (Some q)))).
Proof.
  intros Hok Hq. split.
  - split; [reflexivity|]. split; [now apply criarSala_ok|]. split.
    + intros j sala Hj. unfold criarSala. cbn [snd]. now apply lookup_app_l_Some.
    + pose proof (criarSala_ok nome pista casa Hok) as Hok'.
      unfold criarSala in *. cbn [snd] in *.
      eexists. split; [apply list_lookup_middle; reflexivity|].
      unfold casa_ok in Hok'. apply Forall_app in Hok' as [_ Hnew].
      apply Forall_cons in Hnew as [(Hs & _) _]. auto.
  - split; [apply (ligar_ok true); assumption|].
    split; [apply (ligar_ok false); assumption|]. split.
    + intros Hne. unfold ligar_esquerda, ligar_direita.
      split; apply list_lookup_alter_ne; auto.
    + intros sala Hs. unfold ligar_esquerda, ligar_direita.
      rewrite !list_lookup_alter_eq, Hs. auto.
Qed.

Lemma X23_construir_casa_witness :
  casa_ok (snd (criarSala "Adega" (Some "Rolha"%string) (snd mapa_main))) /\
  casa_ok (ligar_esquerda 5 3 (snd mapa_main)).
Proof.
  assert (casa_ok (snd mapa_main)) as H1.
  { unfold casa_ok. vm_compute snd.
    repeat (apply Forall_cons; split;
            [split; [split; vm_compute; lia|];
             split; vm_compute; intros q Hq; try discriminate;
             injection Hq as <-; lia|]).
    constructor. }
  assert (3 < length (snd mapa_main))%nat as H2 by (vm_compute; lia).
  destruct (X23_construir_casa "Adega" (Some "Rolha"%string) (snd mapa_main) 5 3 0 H1 H2)
    as ((_ & Hc & _) & (Hl & _)).
  split; [exact Hc | exact Hl].
Defined.

(** X24. A room created with a null or an empty clue has no clue: entering
    it prints that the room has none and leaves the clue set untouched. *)
Theorem X24_sala_sem_pista (nome : string) (pista : option string) (casa : Casa)
  (raizPistas : PistaNode) (w : Mundo) :
  pista = None \/ pista = Some EmptyString ->
  exists sala, snd (criarSala nome pista casa) !! fst (criarSala nome pista casa)
               = Some sala /\
    s_pista sala = EmptyString /\
    entrarSala sala raizPistas w
    = (raizPistas,
       mkMundo (stdin w)
         (stdout w ++ [MEntrou (strncpy nome (MAX_NOME - 1)); MNenhumaPistaSala])).
Proof.
  intros Hp. unfold criarSala. cbn [fst snd].
  eexists. split; [apply list_lookup_middle; reflexivity|].
  destruct Hp as [-> | ->]; (split; [reflexivity|]);
    unfold entrarSala, imprimir; cbn [s_pista s_nome stdin stdout];
    now rewrite <- app_assoc.
Qed.

Lemma X24_sala_sem_pista_witness :
  exists sala, snd (criarSala "Sotao" None []) !! fst (criarSala "Sotao" None [])
               = Some sala /\
    s_pista sala = EmptyString /\
    entrarSala sala PNull (mkMundo EmptyString [])
    = (PNull, mkMundo EmptyString [MEntrou "Sotao"; MNenhumaPistaSala]).
Proof.
  apply (X24_sala_sem_pista "Sotao" None [] PNull (mkMundo EmptyString [])).
  left. reflexivity.
Defined.
